(** * pandaproxy::kafka_client_cache

    A shallow embedding of [src/v/pandaproxy/kafka_client_cache.cc]: the
    LRU cache of Kafka clients kept by the REST proxy, one client per
    authenticated user.

    - The cache object, the store of shared clients ([client_ptr] is a
      [ss::lw_shared_ptr]), the cleanup timer and the record of what the
      cache asks of its collaborators (log lines, [client::stop] calls,
      [timer::rearm] calls) are fields of one [state] that every operation
      threads through.
    - [fetch_or_insert] is synchronous; [clean_stale_clients] and [stop]
      are [ss::future<>] coroutines and may resolve to an exception.
    - Clock readings are inputs of the operation that takes them.  Time
      points and durations are integer tick counts (milliseconds).  The
      expiry test is carried out as the code does it, on 64-bit counts of
      nanoseconds that wrap around (see [is_expired]). *)

From Stdlib Require Import ZArith Lia.
From stdpp Require Import base decidable option list strings.

Local Open Scope Z_scope.

(** ** Data model *)

(** [kafka::client::configuration], restricted to the three properties the
    cache reads or writes. *)
Record configuration := Configuration {
  sasl_mechanism : string;
  scram_username : string;
  scram_password : string;
}.

Definition set_sasl_mechanism (v : string) (c : configuration) :=
  Configuration v (scram_username c) (scram_password c).
Definition set_scram_username (v : string) (c : configuration) :=
  Configuration (sasl_mechanism c) v (scram_password c).
Definition set_scram_password (v : string) (c : configuration) :=
  Configuration (sasl_mechanism c) (scram_username c) v.

(** [config::rest_authn_method]. *)
Inductive rest_authn_method := none | http_basic.

Global Instance rest_authn_method_eq_dec : EqDecision rest_authn_method.
Proof. solve_decision. Defined.

Record credential_t := Credential { name : string; pass : string }.

(** [kafka::client::client]: the cache only ever touches its configuration
    and calls [stop] on it. *)
Record client := Client { config : configuration }.

(** [client_ptr = ss::lw_shared_ptr<kafka::client::client>]: a location in
    the client store.  Two pointers are the same reference iff they are the
    same location. *)
Definition client_ptr := nat.

(** Modelled from the spec: the header [kafka_client_cache.h] is not part of
    the sources.  A cache entry is [{identity, client handle, last_used
    timestamp}]; an entry built by [emplace_front(k, client)] has
    [last_used = now]. *)
Record timestamped_user := TimestampedUser {
  key : string;
  tu_client : client_ptr;
  last_used : Z;
}.

Global Instance timestamped_user_eq_dec : EqDecision timestamped_user.
Proof. solve_decision. Defined.

Definition set_last_used (t : Z) (item : timestamped_user) :=
  TimestampedUser (key item) (tu_client item) t.

(** [ss::timer<ss::lowres_clock>]: the armed flag and the expiry. *)
Record timer := Timer { armed : bool; get_timeout : Z }.

Definition rearm (t : Z) (_ : timer) : timer := Timer true t.

(** [std::exception_ptr]. *)
Inductive exception_ptr := Exception (what : string).

(** The [vlog(plog.debug, ...)] lines of the file. *)
Inductive log_line :=
  | Cache_size_reached_evicting (k : string)
  | Make_client_for_user (k : string)
  | Updating_password_for_user (k : string)
  | Reuse_client_for_user (k : string)
  | Stale_client_stop_already_happened (k : string) (ex : exception_ptr).

(** What the cache asks of its collaborators, oldest first. *)
Inductive event :=
  | EvLog (l : log_line)
  | EvStop (c : client_ptr)
  | EvRearm (t : Z).

Global Instance exception_ptr_eq_dec : EqDecision exception_ptr.
Proof. solve_decision. Defined.
Global Instance log_line_eq_dec : EqDecision log_line.
Proof. solve_decision. Defined.
Global Instance event_eq_dec : EqDecision event.
Proof. solve_decision. Defined.

(** Modelled from the spec: the members of the class are declared in the
    absent header.  [_cache] is the index, "a recency-ordered sequence
    (front = most recent) and an identity-keyed lookup table" over one set
    of entries: the [boost::multi_index_container] in its sequenced view,
    the hashed-unique view being lookup by [key] in the same list.
    [_evicted_items] is the list of entries waiting to be stopped.
    [_cache_max_size] is a [size_t] that is only ever compared with
    [_cache.size()].  The last two fields are the surroundings of the
    cache: the store of clients and the record of calls made. *)
Record state := State {
  _config : configuration;
  _cache_max_size : nat;
  _keep_alive : Z;
  _clean_and_evict_timer : timer;
  _cache : list timestamped_user;
  _evicted_items : list timestamped_user;
  clients : list client;
  events : list event;
}.

Definition set_timer (t : timer) (s : state) : state :=
  State (_config s) (_cache_max_size s) (_keep_alive s) t
        (_cache s) (_evicted_items s) (clients s) (events s).
Definition set_cache (l : list timestamped_user) (s : state) : state :=
  State (_config s) (_cache_max_size s) (_keep_alive s)
        (_clean_and_evict_timer s) l (_evicted_items s) (clients s) (events s).
Definition set_evicted_items (l : list timestamped_user) (s : state) : state :=
  State (_config s) (_cache_max_size s) (_keep_alive s)
        (_clean_and_evict_timer s) (_cache s) l (clients s) (events s).
Definition set_clients (h : list client) (s : state) : state :=
  State (_config s) (_cache_max_size s) (_keep_alive s)
        (_clean_and_evict_timer s) (_cache s) (_evicted_items s) h (events s).
Definition emit (e : event) (s : state) : state :=
  State (_config s) (_cache_max_size s) (_keep_alive s)
        (_clean_and_evict_timer s) (_cache s) (_evicted_items s) (clients s)
        (events s ++ [e]).

(** The constructor.  The timer belongs to the caller, who may have armed it;
    no client exists yet. *)
Definition kafka_client_cache
    (cfg : configuration) (max_size : nat) (keep_alive : Z)
    (clean_and_evict_timer : timer) : state :=
  State cfg max_size keep_alive clean_and_evict_timer [] [] [] [].

(** ** Synchronous code: state passing *)

Definition St (A : Type) : Type := state → A * state.

Global Instance St_ret : MRet St := λ A a s, (a, s).
Global Instance St_bind : MBind St := λ A B f m s,
  let '(a, s') := m s in f a s'.
Definition get {A} (f : state → A) : St A := λ s, (f s, s).
Definition modify_state (f : state → state) : St unit := λ s, (tt, f s).

Definition vlog (l : log_line) : St unit := modify_state (emit (EvLog l)).
Definition when (b : bool) (m : St unit) : St unit :=
  if b then m else mret tt.

(** *** The two views of [_cache] *)

(** [inner_hash.find(k)]: an iterator is the position of the entry in the
    sequenced view (what [_cache.project<underlying_list>] gives) together
    with the entry it points to; [None] is [inner_hash.end()]. *)
Fixpoint hash_find (k : string) (l : list timestamped_user)
    : option (nat * timestamped_user) :=
  match l with
  | [] => None
  | item :: l' =>
      if decide (key item = k) then Some (0%nat, item)
      else prod_map S id <$> hash_find k l'
  end.

(** [inner_list.emplace_front]: the hashed-unique view refuses an entry
    whose key is already there. *)
Definition emplace_front (item : timestamped_user)
    (l : list timestamped_user) : list timestamped_user :=
  match hash_find (key item) l with
  | None => item :: l
  | Some _ => l
  end.

(** [inner_list.pop_back()]. *)
Definition pop_back (l : list timestamped_user) : list timestamped_user :=
  take (length l - 1) l.

(** [inner_list.modify(it, f)]. *)
Definition modify (i : nat) (f : timestamped_user → timestamped_user)
    (l : list timestamped_user) : list timestamped_user :=
  alter f i l.

(** [inner_list.relocate(inner_list.begin(), it)]. *)
Definition relocate_front (i : nat) (l : list timestamped_user)
    : list timestamped_user :=
  match l !! i with
  | Some item => item :: delete i l
  | None => l
  end.

(** *** make_client *)

(** [kafka::client::configuration cfg{to_yaml(_config)}], the overlay of the
    SCRAM credentials under HTTP Basic, and [ss::make_lw_shared]: a fresh
    location at the end of the store. *)
Definition client_configuration (cfg0 : configuration) (user : credential_t)
    (authn_method : rest_authn_method) : configuration :=
  if decide (authn_method = http_basic) then
    set_scram_password (pass user)
      (set_scram_username (name user)
         (set_sasl_mechanism "SCRAM-SHA-256" cfg0))
  else cfg0.

Definition make_client (user : credential_t) (authn_method : rest_authn_method)
    : St client_ptr :=
  cfg0 ← get _config;
  let cfg := client_configuration cfg0 user authn_method in
  h ← get clients;
  modify_state (set_clients (h ++ [Client cfg]));;
  mret (length h).

(** *** fetch_or_insert *)

(** [1s] in clock ticks. *)
Definition one_second : Z := 1000.

(** The condition under which an eviction re-arms the timer. *)
Definition should_rearm (t : timer) (window : Z) : bool :=
  negb (armed t) || (armed t && bool_decide (get_timeout t > window)).

Definition evict_back (now : Z) : St unit :=
  l ← get _cache;
  match last l with
  | Some item =>
      vlog (Cache_size_reached_evicting (key item));;
      modify_state (set_cache (pop_back l));;
      ev ← get _evicted_items;
      modify_state (set_evicted_items (ev ++ [item]));;
      let window := now + one_second in
      t ← get _clean_and_evict_timer;
      when (should_rearm t window)
        (modify_state (set_timer (rearm window t));;
         modify_state (emit (EvRearm window)))
  | None => mret tt (* [_cache.empty()] *)
  end.

Definition fetch_or_insert (user : credential_t)
    (authn_method : rest_authn_method) (now : Z) : St client_ptr :=
  let k := name user in
  l ← get _cache;
  match hash_find k l with
  | None =>
      max ← get _cache_max_size;
      when (bool_decide (max ≤ length l)%nat) (evict_back now);;
      vlog (Make_client_for_user k);;
      c ← make_client user authn_method;
      l' ← get _cache;
      modify_state (set_cache (emplace_front (TimestampedUser k c now) l'));;
      mret c
  | Some (i, item) =>
      let c := tu_client item in
      h ← get clients;
      match h !! c with
      | Some cl =>
          if decide (scram_password (config cl) ≠ pass user) then
            vlog (Updating_password_for_user k);;
            modify_state
              (set_clients
                 (<[c := Client (set_scram_password (pass user) (config cl))]> h))
          else
            vlog (Reuse_client_for_user k)
      | None => mret tt (* a shared pointer never dangles *)
      end;;
      l1 ← get _cache;
      modify_state (set_cache (modify i (set_last_used now) l1));;
      l2 ← get _cache;
      modify_state (set_cache (relocate_front i l2));;
      mret c
  end.

(** ** Coroutines: futures that may resolve to an exception *)

Abbreviation Fut A := (St (exception_ptr + A)).

Definition make_ready_future {A} (a : A) : Fut A := mret (inr a).

(** [co_await m] followed by [k]: a failed future is rethrown, which ends
    the coroutine with that exception. *)
Definition co_await {A B} (m : Fut A) (k : A → Fut B) : Fut B :=
  r ← m;
  match r with
  | inl ex => mret (inl ex)
  | inr a => k a
  end.

(** [f.handle_exception(h)]: the handler runs on failure and the resulting
    future is ready. *)
Definition handle_exception (m : Fut unit) (h : exception_ptr → St unit)
    : Fut unit :=
  r ← m;
  match r with
  | inl ex => h ex;; mret (inr tt)
  | inr _ => mret (inr tt)
  end.

(** ** Calls and sample inputs *)

Inductive op :=
  | Fetch_or_insert (user : credential_t) (authn_method : rest_authn_method)
      (now : Z)
  | Clean_stale_clients (now : Z)
  | Stop.

(** A template configuration without credentials, three users, and a
    collaborator whose first client fails to stop. *)
Definition plain_config : configuration := Configuration "" "" "".
Definition alice : credential_t := Credential "alice" "wonderland".
Definition bob : credential_t := Credential "bob" "builder".
Definition carol : credential_t := Credential "carol" "singer".
Definition first_stop_fails (c : client_ptr) : option exception_ptr :=
  if decide (c = 0%nat) then Some (Exception "gate closed") else None.

Section Cache.

(** How [kafka::client::client::stop] of each client resolves: [None] when
    the future is ready, [Some ex] when it fails with [ex].  The client is
    an external collaborator, so nothing is assumed about it. *)
Variable stop_outcome : client_ptr → option exception_ptr.

Definition client_stop (c : client_ptr) : Fut unit :=
  modify_state (emit (EvStop c));;
  mret (match stop_outcome c with Some ex => inl ex | None => inr tt end).

(** *** remove_client_if *)

(** The [while (first != last)] loop: one pass over [list], moving the
    entries that satisfy [pred] to [remove] in the order met.  Returns
    [(remove, list)]. *)
Fixpoint erase_loop (pred : timestamped_user → bool)
    (l : list timestamped_user)
    : list timestamped_user * list timestamped_user :=
  match l with
  | [] => ([], [])
  | first :: l' =>
      let '(remove, rest) := erase_loop pred l' in
      if pred first then (first :: remove, rest)
      else (remove, first :: rest)
  end.

(** The [for (auto& item : remove)] loop. *)
Fixpoint stop_loop (remove : list timestamped_user) : Fut unit :=
  match remove with
  | [] => make_ready_future tt
  | item :: remove' =>
      co_await
        (handle_exception (client_stop (tu_client item))
           (λ ex, vlog (Stale_client_stop_already_happened (key item) ex)))
        (λ _, stop_loop remove')
  end.

(** [list] is passed by reference: a getter and a setter on the state. *)
Definition remove_client_if
    (list_get : state → list timestamped_user)
    (list_set : list timestamped_user → state → state)
    (pred : timestamped_user → bool) : Fut unit :=
  l ← get list_get;
  let '(remove, rest) := erase_loop pred l in
  modify_state (list_set rest);;
  stop_loop remove.

(** *** clean_stale_clients and stop *)

(** [int64_t] arithmetic, the representation of [std::chrono] counts: a
    result out of range wraps around, as it does on the machines the code
    runs on. *)
Definition int64_wrap (z : Z) : Z := (z + 2 ^ 63) mod 2 ^ 64 - 2 ^ 63.

(** The period of [timestamped_user::clock] is a nanosecond; a clock tick
    of the embedding is a millisecond. *)
Definition ns_per_ms : Z := 1000000.

(** [now >= (item.last_used + keep_alive)]: [keep_alive], a count of
    milliseconds, is converted to the clock's nanoseconds and added to the
    nanosecond count of [last_used], both in [int64_t]; the comparison is
    on nanosecond counts.  Clock readings are whole milliseconds whose
    nanosecond count is in range. *)
Definition is_expired (keep_alive now : Z) (item : timestamped_user) : bool :=
  bool_decide
    (now * ns_per_ms >=
     int64_wrap (last_used item * ns_per_ms
                 + int64_wrap (keep_alive * ns_per_ms))).

(** [z] is the value of an [int64_t]. *)
Definition in_int64 (z : Z) : Prop := - 2 ^ 63 ≤ z < 2 ^ 63.

(** The expiry time of an entry last used at [t] is representable: neither
    the conversion of [keep_alive] to nanoseconds nor the sum leaves
    [int64_t]. *)
Definition expiry_representable (keep_alive t : Z) : Prop :=
  in_int64 (keep_alive * ns_per_ms)
  ∧ in_int64 (t * ns_per_ms + keep_alive * ns_per_ms).

Definition always (_ : timestamped_user) : bool := true.

Definition clean_stale_clients (now : Z) : Fut unit :=
  keep_alive ← get _keep_alive;
  co_await (remove_client_if _cache set_cache (is_expired keep_alive now))
    (λ _, remove_client_if _evicted_items set_evicted_items always).

Definition stop : Fut unit :=
  co_await (remove_client_if _cache set_cache always)
    (λ _, remove_client_if _evicted_items set_evicted_items always).

Definition size (s : state) : nat := length (_cache s).
Definition max_size (s : state) : nat := _cache_max_size s.

(** ** Sequences of calls *)

(** One call, run to completion.  A [fetch_or_insert] reports the identity
    asked for and the handle returned. *)
Definition call (o : op) (s : state) : list (string * client_ptr) * state :=
  match o with
  | Fetch_or_insert user authn_method now =>
      let '(c, s') := fetch_or_insert user authn_method now s in
      ([(name user, c)], s')
  | Clean_stale_clients now => ([], (clean_stale_clients now s).2)
  | Stop => ([], (stop s).2)
  end.

Fixpoint run (ops : list op) (s : state) : state :=
  match ops with
  | [] => s
  | o :: ops' => run ops' (call o s).2
  end.

(** The handles returned by the [fetch_or_insert] calls of [ops], oldest
    first. *)
Fixpoint returned (ops : list op) (s : state) : list (string * client_ptr) :=
  match ops with
  | [] => []
  | o :: ops' => (call o s).1 ++ returned ops' (call o s).2
  end.

(** ** Observations *)

(** The clients on which [stop] was called, oldest first. *)
Fixpoint stopped (evs : list event) : list client_ptr :=
  match evs with
  | [] => []
  | EvStop c :: evs' => c :: stopped evs'
  | _ :: evs' => stopped evs'
  end.

(** The deadlines the timer was re-armed to, oldest first. *)
Fixpoint rearmed (evs : list event) : list Z :=
  match evs with
  | [] => []
  | EvRearm t :: evs' => t :: rearmed evs'
  | _ :: evs' => rearmed evs'
  end.

(** How often [stop] was called on [c]. *)
Definition stop_count (c : client_ptr) (s : state) : nat :=
  length (filter (λ c', c' = c) (stopped (events s))).

Definition handles (l : list timestamped_user) : list client_ptr :=
  tu_client <$> l.

(** What one [client::stop] call leaves in the record: the call and, when
    it failed, the log line of the handler. *)
Definition stop_events (item : timestamped_user) : list event :=
  EvStop (tu_client item) ::
  match stop_outcome (tu_client item) with
  | Some ex => [EvLog (Stale_client_stop_already_happened (key item) ex)]
  | None => []
  end.


(** The bookkeeping invariant of the cache: identities are unique in the
    index; every client ever made is, exactly once, in the index, in
    [_evicted_items] or among the stopped ones; the index holds no more
    than the larger of [max_size] and one. *)
Definition wf (s : state) : Prop :=
  NoDup (key <$> _cache s) ∧
  handles (_cache s) ++ handles (_evicted_items s) ++ stopped (events s)
    ≡ₚ seq 0 (length (clients s)) ∧
  (length (_cache s) ≤ Nat.max (_cache_max_size s) 1)%nat.

(** [o] is a [fetch_or_insert] for the identity [k]. *)
Definition asks_for (k : string) (o : op) : Prop :=
  match o with
  | Fetch_or_insert user _ _ => name user = k
  | _ => False
  end.

(** [o] is not a [fetch_or_insert] under another method than HTTP Basic. *)
Definition uses_http_basic (o : op) : Prop :=
  match o with
  | Fetch_or_insert _ authn_method _ => authn_method = http_basic
  | _ => True
  end.

(** The client of every entry authenticates as the identity of the
    entry. *)
Definition authenticates_as_identity (s : state) : Prop :=
  ∀ item, item ∈ _cache s ++ _evicted_items s →
    ∃ cl, clients s !! tu_client item = Some cl
          ∧ sasl_mechanism (config cl) = "SCRAM-SHA-256"
          ∧ scram_username (config cl) = key item.

(** The client of the entry of [k], if the index has one, holds the
    secret [p]. *)
Definition holds_secret (k p : string) (s : state) : Prop :=
  ∀ item, item ∈ _cache s → key item = k →
    ∃ cl, clients s !! tu_client item = Some cl
          ∧ scram_password (config cl) = p.


(** ** Suspension points *)

(** [clean_stale_clients] and [stop] are coroutines: each [co_await] of a
    client's [stop] is a point where the coroutine may be suspended and
    other calls may run.  What runs without suspension is the removal loop
    and the call of [stop] on the next entry; what waits is the outcome of
    that [stop].  Every [co_await] is taken as a suspension; a future that
    is ready at once gives a run in which the coroutine is the next to
    resume. *)

(** A suspended coroutine: it awaits [stop] of the client of [awaited], in
    the second [remove_client_if] (on [_evicted_items]) when [second] and
    in the first (on the index) otherwise; [remaining] are the entries of
    its [remove] list after that one. *)
Record frame := Awaiting {
  second : bool;
  awaited : timestamped_user;
  remaining : list timestamped_user;
}.

(** [item.client->stop()] is called ... *)
Definition begin_stop (item : timestamped_user) : St unit :=
  modify_state (emit (EvStop (tu_client item))).

(** ... and, after the suspension, its future is looked at by the
    handler. *)
Definition end_stop (item : timestamped_user) : St unit :=
  match stop_outcome (tu_client item) with
  | Some ex => vlog (Stale_client_stop_already_happened (key item) ex)
  | None => mret tt
  end.

(** The [for] loop up to its next [co_await]: [None] when [remove] is
    exhausted. *)
Definition start_loop (second : bool) (remove : list timestamped_user)
    : St (option frame) :=
  match remove with
  | [] => mret None
  | item :: remove' =>
      begin_stop item;; mret (Some (Awaiting second item remove'))
  end.

(** [remove_client_if(_evicted_items, always)] up to its first
    [co_await]. *)
Definition enter_evicted : St (option frame) :=
  l ← get _evicted_items;
  let '(remove, rest) := erase_loop always l in
  modify_state (set_evicted_items rest);;
  start_loop true remove.

(** [remove_client_if(inner_list, pred)] up to its first [co_await], going
    on into the second [remove_client_if] when nothing was removed. *)
Definition enter_index (pred : timestamped_user → bool) : St (option frame) :=
  l ← get _cache;
  let '(remove, rest) := erase_loop pred l in
  modify_state (set_cache rest);;
  fr ← start_loop false remove;
  match fr with
  | Some f => mret (Some f)
  | None => enter_evicted
  end.

(** A suspended coroutine resumes and runs to its next [co_await] or to
    its end. *)
Definition resume (f : frame) : St (option frame) :=
  end_stop (awaited f);;
  fr ← start_loop (second f) (remaining f);
  match fr with
  | Some f' => mret (Some f')
  | None => if second f then mret None else enter_evicted
  end.

(** What happens next: a caller makes a call, which runs to its first
    suspension, or the [i]-th suspended coroutine resumes. *)
Inductive action :=
  | Call (o : op)
  | Resume (i : nat).

(** The cache together with its suspended coroutines. *)
Definition system : Type := state * list frame.

Definition istep (a : action) (c : system) : system :=
  let '(s, fs) := c in
  match a with
  | Call (Fetch_or_insert user authn_method now) =>
      ((fetch_or_insert user authn_method now s).2, fs)
  | Call (Clean_stale_clients now) =>
      let '(fr, s') := enter_index (is_expired (_keep_alive s) now) s in
      (s', fs ++ option_list fr)
  | Call Stop =>
      let '(fr, s') := enter_index always s in
      (s', fs ++ option_list fr)
  | Resume i =>
      match fs !! i with
      | Some f =>
          let '(fr, s') := resume f s in
          (s', match fr with
               | Some f' => <[i := f']> fs
               | None => delete i fs
               end)
      | None => c
      end
  end.

Fixpoint irun (acts : list action) (c : system) : system :=
  match acts with
  | [] => c
  | a :: acts' => irun acts' (istep a c)
  end.

(** The clients that suspended coroutines have removed and not yet called
    [stop] on. *)
Definition pending (fs : list frame) : list client_ptr :=
  concat ((λ f, handles (remaining f)) <$> fs).

(** The bookkeeping invariant with coroutines in flight: a client made so
    far is, exactly once, in the index, in [_evicted_items], in the
    [remove] list of a suspended coroutine and not yet stopped, or among
    those [stop] was called on. *)
Definition iwf (c : system) : Prop :=
  NoDup (key <$> _cache c.1) ∧
  handles (_cache c.1) ++ handles (_evicted_items c.1) ++ pending c.2
    ++ stopped (events c.1)
    ≡ₚ seq 0 (length (clients c.1)).


(** The invariant of [iwf] for any list [X] of removed clients that [stop]
    has not been called on yet. *)
Definition accounted (X : list client_ptr) (s : state) : Prop :=
  NoDup (key <$> _cache s) ∧
  handles (_cache s) ++ handles (_evicted_items s) ++ X
    ++ stopped (events s)
    ≡ₚ seq 0 (length (clients s)).


(** ** Basic facts *)

Ltac unfold_st :=
  unfold co_await, handle_exception, make_ready_future, vlog, when,
    modify_state, get, mbind, mret, St_bind, St_ret in *.

Ltac proj_state :=
  cbn [_config _cache_max_size _keep_alive _clean_and_evict_timer _cache
       _evicted_items clients events fst snd set_cache set_evicted_items
       set_clients set_timer emit] in *.

Lemma int64_wrap_small z : in_int64 z → int64_wrap z = z.
Proof.
  unfold in_int64, int64_wrap.
  change (2 ^ 63) with 9223372036854775808.
  change (2 ^ 64) with 18446744073709551616.
  intros Hz. rewrite Z.mod_small by lia. lia.
Qed.

(** Where the expiry time is representable the test of the code is the
    comparison of [last_used + keep_alive] with [now]. *)
Lemma is_expired_representable keep_alive now item :
  expiry_representable keep_alive (last_used item) →
  is_expired keep_alive now item ↔ last_used item + keep_alive ≤ now.
Proof.
  intros [HT Hsum]. unfold is_expired.
  rewrite bool_decide_spec, (int64_wrap_small _ HT), (int64_wrap_small _ Hsum).
  unfold ns_per_ms. lia.
Qed.

(** The test of the code is monotone in the clock reading. *)
Lemma is_expired_mono keep_alive now now' item :
  now ≤ now' → is_expired keep_alive now item → is_expired keep_alive now' item.
Proof.
  unfold is_expired. rewrite !bool_decide_spec. unfold ns_per_ms.
  generalize (int64_wrap (last_used item * 1000000
                          + int64_wrap (keep_alive * 1000000))).
  intros W. lia.
Qed.

Lemma hash_find_None k l : hash_find k l = None ↔ k ∉ key <$> l.
Proof.
  induction l as [|item l IH]; simpl.
  - split; [intros _; apply not_elem_of_nil | done].
  - case_decide as Hk.
    + split; [done | intros []; subst; left].
    + rewrite fmap_None, IH, not_elem_of_cons. split; [by split|by intros []].
Qed.

Lemma hash_find_Some k l i item :
  hash_find k l = Some (i, item) → l !! i = Some item ∧ key item = k.
Proof.
  revert i; induction l as [|x l IH]; intros i; simpl; [done|].
  case_decide as Hk.
  - intros [= <- <-]. done.
  - destruct (hash_find k l) as [[j y]|] eqn:E; simpl; [|done].
    intros [= <- <-]. apply (IH j). done.
Qed.

Lemma hash_find_is_Some k l :
  k ∈ key <$> l → ∃ i item, hash_find k l = Some (i, item).
Proof.
  intros Hin. destruct (hash_find k l) as [[i item]|] eqn:E; [eauto|].
  apply hash_find_None in E. done.
Qed.

Lemma emplace_front_fresh item l :
  key item ∉ key <$> l → emplace_front item l = item :: l.
Proof.
  intros H. apply hash_find_None in H. unfold emplace_front. by rewrite H.
Qed.

Lemma pop_back_snoc l item : pop_back (l ++ [item]) = l.
Proof.
  unfold pop_back. rewrite length_app; simpl.
  replace (length l + 1 - 1)%nat with (length l) by lia.
  by rewrite take_app_length.
Qed.

Lemma last_Some_snoc {A} (l : list A) x :
  last l = Some x → ∃ l', l = l' ++ [x].
Proof.
  destruct l as [|y l _] using rev_ind; [done|].
  rewrite last_snoc. intros [= ->]. eauto.
Qed.

Lemma NoDup_fmap_elem_eq {A B} (f : A → B) (l : list A) x y :
  NoDup (f <$> l) → x ∈ l → y ∈ l → f x = f y → x = y.
Proof.
  intros Hnd [i Hi]%list_elem_of_lookup [j Hj]%list_elem_of_lookup Hf.
  assert (i = j) as ->; [|congruence].
  eapply (NoDup_lookup _ i j (f x) Hnd); rewrite list_lookup_fmap.
  - by rewrite Hi.
  - by rewrite Hj, Hf.
Qed.

Lemma delete_alter_same {A} (f : A → A) i (l : list A) :
  delete i (alter f i l) = delete i l.
Proof.
  revert i; induction l as [|x l IH]; intros [|i]; simpl; try done.
  f_equal. apply IH.
Qed.

Lemma erase_loop_filter pred l :
  erase_loop pred l = (filter (λ x, pred x) l, filter (λ x, ¬ pred x) l).
Proof.
  induction l as [|x l IH]; simpl; [done|].
  rewrite IH, !filter_cons. by destruct (pred x).
Qed.

Lemma stopped_app evs1 evs2 : stopped (evs1 ++ evs2) = stopped evs1 ++ stopped evs2.
Proof.
  induction evs1 as [|[] evs1 IH]; simpl; by rewrite ?IH.
Qed.

Lemma rearmed_app evs1 evs2 : rearmed (evs1 ++ evs2) = rearmed evs1 ++ rearmed evs2.
Proof.
  induction evs1 as [|[] evs1 IH]; simpl; by rewrite ?IH.
Qed.

Lemma stopped_stop_events l :
  stopped (concat (stop_events <$> l)) = handles l.
Proof.
  induction l as [|item l IH]; [done|].
  rewrite fmap_cons, concat_cons, stopped_app, IH.
  unfold stop_events. by destruct (stop_outcome _).
Qed.

Lemma rearmed_stop_events l : rearmed (concat (stop_events <$> l)) = [].
Proof.
  induction l as [|item l IH]; [done|].
  rewrite fmap_cons, concat_cons, rearmed_app, IH.
  unfold stop_events. by destruct (stop_outcome _).
Qed.

(** The [for] loop in closed form: it always completes, and leaves the
    record of each stop in turn. *)
Lemma stop_loop_spec remove s :
  stop_loop remove s =
    (inr tt,
     State (_config s) (_cache_max_size s) (_keep_alive s)
       (_clean_and_evict_timer s) (_cache s) (_evicted_items s) (clients s)
       (events s ++ concat (stop_events <$> remove))).
Proof.
  revert s; induction remove as [|item remove IH]; intros s; simpl.
  - unfold_st. rewrite app_nil_r. by destruct s.
  - unfold client_stop, stop_events. unfold_st. simpl.
    destruct (stop_outcome (tu_client item)); simpl;
      rewrite IH; simpl; by rewrite <- ?app_assoc.
Qed.

Lemma remove_client_if_cache pred s :
  remove_client_if _cache set_cache pred s =
    (inr tt,
     State (_config s) (_cache_max_size s) (_keep_alive s)
       (_clean_and_evict_timer s)
       (filter (λ x, ¬ pred x) (_cache s)) (_evicted_items s) (clients s)
       (events s ++ concat (stop_events <$> filter (λ x, pred x) (_cache s)))).
Proof.
  unfold remove_client_if. unfold_st. rewrite erase_loop_filter.
  by rewrite stop_loop_spec.
Qed.

Lemma remove_client_if_evicted_items pred s :
  remove_client_if _evicted_items set_evicted_items pred s =
    (inr tt,
     State (_config s) (_cache_max_size s) (_keep_alive s)
       (_clean_and_evict_timer s)
       (_cache s) (filter (λ x, ¬ pred x) (_evicted_items s)) (clients s)
       (events s ++
        concat (stop_events <$> filter (λ x, pred x) (_evicted_items s)))).
Proof.
  unfold remove_client_if. unfold_st. rewrite erase_loop_filter.
  by rewrite stop_loop_spec.
Qed.

Lemma filter_always (l : list timestamped_user) :
  filter (λ x, always x) l = l ∧ filter (λ x, ¬ always x) l = [].
Proof.
  unfold always. induction l as [|x l [IH1 IH2]]; [done|].
  rewrite !filter_cons. simpl. split; [f_equal; exact IH1 | exact IH2].
Qed.

Lemma clean_stale_clients_spec now s :
  clean_stale_clients now s =
    (inr tt,
     State (_config s) (_cache_max_size s) (_keep_alive s)
       (_clean_and_evict_timer s)
       (filter (λ x, ¬ is_expired (_keep_alive s) now x) (_cache s)) []
       (clients s)
       (events s ++
        concat (stop_events <$>
                  filter (λ x, is_expired (_keep_alive s) now x) (_cache s)) ++
        concat (stop_events <$> _evicted_items s))).
Proof.
  unfold clean_stale_clients. unfold_st.
  rewrite remove_client_if_cache, remove_client_if_evicted_items. proj_state.
  destruct (filter_always (_evicted_items s)) as [-> ->].
  by rewrite <- app_assoc.
Qed.

Lemma stop_spec s :
  stop s =
    (inr tt,
     State (_config s) (_cache_max_size s) (_keep_alive s)
       (_clean_and_evict_timer s) [] [] (clients s)
       (events s ++ concat (stop_events <$> _cache s) ++
        concat (stop_events <$> _evicted_items s))).
Proof.
  unfold stop. unfold_st.
  rewrite remove_client_if_cache, remove_client_if_evicted_items. proj_state.
  destruct (filter_always (_evicted_items s)) as [-> ->].
  destruct (filter_always (_cache s)) as [-> ->].
  by rewrite <- app_assoc.
Qed.

(** [fetch_or_insert] in closed form, one lemma per path through it. *)

Lemma fetch_or_insert_miss_room user authn_method now s :
  hash_find (name user) (_cache s) = None →
  (length (_cache s) < _cache_max_size s)%nat ∨ _cache s = [] →
  fetch_or_insert user authn_method now s =
    (length (clients s),
     State (_config s) (_cache_max_size s) (_keep_alive s)
       (_clean_and_evict_timer s)
       (TimestampedUser (name user) (length (clients s)) now :: _cache s)
       (_evicted_items s)
       (clients s ++
        [Client (client_configuration (_config s) user authn_method)])
       (events s ++ [EvLog (Make_client_for_user (name user))])).
Proof.
  intros Hmiss Hroom. unfold fetch_or_insert. unfold_st. rewrite Hmiss.
  assert (Hk : name user ∉ key <$> _cache s) by by apply hash_find_None.
  case_bool_decide as Hfull; simpl.
  - destruct Hroom as [Hlt | Hnil]; [lia|].
    unfold evict_back. unfold_st. rewrite Hnil in *. simpl.
    unfold make_client. unfold_st. simpl. by rewrite Hnil.
  - unfold make_client. unfold_st. simpl.
    by rewrite emplace_front_fresh.
Qed.

Lemma fetch_or_insert_miss_evict user authn_method now s l item :
  hash_find (name user) (_cache s) = None →
  (_cache_max_size s ≤ length (_cache s))%nat →
  _cache s = l ++ [item] →
  let t := _clean_and_evict_timer s in
  let window := now + one_second in
  fetch_or_insert user authn_method now s =
    (length (clients s),
     State (_config s) (_cache_max_size s) (_keep_alive s)
       (if should_rearm t window then rearm window t else t)
       (TimestampedUser (name user) (length (clients s)) now :: l)
       (_evicted_items s ++ [item])
       (clients s ++
        [Client (client_configuration (_config s) user authn_method)])
       (events s ++ [EvLog (Cache_size_reached_evicting (key item))] ++
        (if should_rearm t window then [EvRearm window] else []) ++
        [EvLog (Make_client_for_user (name user))])).
Proof.
  intros Hmiss Hfull Hl t window. unfold fetch_or_insert. unfold_st.
  rewrite Hmiss.
  assert (Hk : name user ∉ key <$> l).
  { apply hash_find_None in Hmiss. rewrite Hl, fmap_app in Hmiss.
    intros Hin. apply Hmiss, elem_of_app. by left. }
  rewrite bool_decide_true by done. simpl.
  unfold evict_back. unfold_st. rewrite Hl, last_snoc, pop_back_snoc. simpl.
  fold window. fold t.
  destruct (should_rearm t window); simpl;
    unfold make_client; unfold_st; simpl.
  all: rewrite emplace_front_fresh by done.
  all: unfold set_cache, set_clients, emit, set_timer, set_evicted_items; simpl.
  all: by rewrite <- ?app_assoc.
Qed.

Lemma fetch_or_insert_hit user authn_method now s i item cl :
  hash_find (name user) (_cache s) = Some (i, item) →
  clients s !! tu_client item = Some cl →
  let changed := bool_decide (scram_password (config cl) ≠ pass user) in
  fetch_or_insert user authn_method now s =
    (tu_client item,
     State (_config s) (_cache_max_size s) (_keep_alive s)
       (_clean_and_evict_timer s)
       (set_last_used now item :: delete i (_cache s))
       (_evicted_items s)
       (if changed then
          <[tu_client item :=
              Client (set_scram_password (pass user) (config cl))]> (clients s)
        else clients s)
       (events s ++
        [EvLog (if changed then Updating_password_for_user (name user)
                else Reuse_client_for_user (name user))])).
Proof.
  intros Hhit Hcl changed. unfold fetch_or_insert. unfold_st.
  rewrite Hhit, Hcl. apply hash_find_Some in Hhit as [Hi _].
  assert (Hrel : relocate_front i (modify i (set_last_used now) (_cache s))
                 = set_last_used now item :: delete i (_cache s)).
  { unfold relocate_front, modify.
    rewrite list_lookup_alter, Hi, decide_True by done. simpl. f_equal.
    apply delete_alter_same. }
  unfold changed, bool_decide.
  repeat case_decide; try done; simpl.
  all: rewrite Hrel; unfold set_cache, set_clients, emit; simpl; done.
Qed.

(** ** The invariant *)

Lemma wf_init cfg max keep_alive t : wf (kafka_client_cache cfg max keep_alive t).
Proof. split_and!; simpl; [constructor | done | lia]. Qed.

Lemma wf_handle_bound s item :
  wf s → item ∈ _cache s ++ _evicted_items s →
  (tu_client item < length (clients s))%nat.
Proof.
  intros (_ & Hperm & _) Hin.
  assert (H : tu_client item ∈ seq 0 (length (clients s))).
  { rewrite <- Hperm, (assoc (++)). apply elem_of_app. left.
    unfold handles. rewrite <- fmap_app. by apply list_elem_of_fmap_2. }
  apply elem_of_seq in H. lia.
Qed.

Lemma wf_hit_client s k i item :
  wf s → hash_find k (_cache s) = Some (i, item) →
  ∃ cl, clients s !! tu_client item = Some cl.
Proof.
  intros Hwf [Hi _]%hash_find_Some.
  apply lookup_lt_is_Some_2, (wf_handle_bound s item Hwf).
  apply elem_of_app. left. by eapply list_elem_of_lookup_2.
Qed.

Lemma wf_fetch_or_insert user authn_method now s :
  wf s → wf (fetch_or_insert user authn_method now s).2.
Proof.
  intros Hwf. pose proof Hwf as (Hkeys & Hperm & Hsize).
  destruct (hash_find (name user) (_cache s)) as [[i item]|] eqn:Hfind.
  - (* hit *)
    destruct (wf_hit_client s _ _ _ Hwf Hfind) as [cl Hcl].
    rewrite (fetch_or_insert_hit _ _ _ _ _ _ _ Hfind Hcl).
    apply hash_find_Some in Hfind as [Hi _].
    pose proof (delete_Permutation _ _ _ Hi) as Hdel.
    split_and!; proj_state.
    + change (NoDup (key <$> item :: delete i (_cache s))).
      by rewrite <- Hdel.
    + change (handles (item :: delete i (_cache s)) ++
              handles (_evicted_items s) ++ stopped (events s ++ [EvLog
                (if bool_decide (scram_password (config cl) ≠ pass user)
                 then Updating_password_for_user (name user)
                 else Reuse_client_for_user (name user))])
              ≡ₚ seq 0 (length (if bool_decide
                   (scram_password (config cl) ≠ pass user)
                 then <[tu_client item :=
                   Client (set_scram_password (pass user) (config cl))]>
                   (clients s) else clients s))).
      rewrite stopped_app, app_nil_r. unfold handles. rewrite <- Hdel.
      by destruct (bool_decide _); rewrite ?length_insert.
    + simpl. rewrite length_delete by eauto.
      apply lookup_lt_Some in Hi. lia.
  - (* miss *)
    pose proof Hfind as Hk%hash_find_None.
    destruct (decide (length (_cache s) < _cache_max_size s
                      ∨ _cache s = [])%nat) as [Hroom|Hfull].
    + rewrite (fetch_or_insert_miss_room _ _ _ _ Hfind Hroom).
      split_and!; proj_state.
      * rewrite fmap_cons. by apply NoDup_cons.
      * rewrite stopped_app, app_nil_r, length_app, Nat.add_1_r, seq_S.
        simpl. rewrite <- Hperm. by rewrite Permutation_cons_append.
      * simpl. destruct Hroom as [? | ->]; simpl; lia.
    + destruct (last (_cache s)) as [item|] eqn:Hlast.
      2:{ apply last_None in Hlast. tauto. }
      apply last_Some_snoc in Hlast as [l Hl].
      assert (Hge : (_cache_max_size s ≤ length (_cache s))%nat) by lia.
      rewrite (fetch_or_insert_miss_evict _ _ _ _ _ _ Hfind Hge Hl).
      rewrite Hl in *. split_and!; proj_state.
      * rewrite fmap_cons. apply NoDup_cons.
        rewrite fmap_app in Hk, Hkeys. split.
        -- intros Hin. apply Hk, elem_of_app. by left.
        -- by apply NoDup_app in Hkeys as (? & _).
      * rewrite !stopped_app, length_app, Nat.add_1_r, seq_S. simpl.
        assert (Hre : ∀ b : bool,
                  stopped (if b then [EvRearm (now + one_second)] else []) = [])
          by by intros [].
        rewrite Hre. simpl. rewrite app_nil_r, <- Hperm.
        unfold handles. rewrite !fmap_app. simpl.
        rewrite Permutation_cons_append.
        rewrite <- !(assoc (++)). apply Permutation_app_head.
        rewrite !(assoc (++)). do 2 apply Permutation_app_tail.
        apply (comm (++)).
      * simpl. rewrite length_app in Hsize. simpl in Hsize. lia.
Qed.

Lemma wf_clean_stale_clients now s : wf s → wf (clean_stale_clients now s).2.
Proof.
  intros (Hkeys & Hperm & Hsize). rewrite clean_stale_clients_spec.
  set (P := λ x : timestamped_user, is_expired (_keep_alive s) now x).
  split_and!; proj_state.
  - eapply sublist_NoDup; [exact Hkeys|]. apply fmap_sublist, sublist_filter.
  - rewrite !stopped_app, !stopped_stop_events. unfold handles in *.
    assert (Hsplit : tu_client <$> _cache s ≡ₚ
              (tu_client <$> filter (λ x, ¬ P x) (_cache s)) ++
              (tu_client <$> filter P (_cache s))).
    { rewrite <- fmap_app, (comm (++)). by rewrite filter_app_complement. }
    rewrite <- Hperm, Hsplit, <- !(assoc (++)). simpl.
    apply Permutation_app_head.
    rewrite (assoc (++) (tu_client <$> filter P (_cache s))).
    apply (comm (++)).
  - pose proof (length_filter (λ x, ¬ P x) (_cache s)). lia.
Qed.

Lemma wf_stop s : wf s → wf (stop s).2.
Proof.
  intros (Hkeys & Hperm & Hsize). rewrite stop_spec.
  split_and!; proj_state.
  - constructor.
  - rewrite !stopped_app, !stopped_stop_events. simpl. rewrite <- Hperm.
    rewrite (assoc (++) (handles (_cache s))). apply (comm (++)).
  - simpl. lia.
Qed.

Lemma wf_call o s : wf s → wf (call o s).2.
Proof.
  intros Hwf. destruct o as [user authn_method now|now|]; simpl.
  - pose proof (wf_fetch_or_insert user authn_method now s Hwf).
    by destruct (fetch_or_insert user authn_method now s).
  - by apply wf_clean_stale_clients.
  - by apply wf_stop.
Qed.

Lemma wf_run ops s : wf s → wf (run ops s).
Proof.
  revert s; induction ops as [|o ops IH]; intros s Hwf; simpl; [done|].
  by apply IH, wf_call.
Qed.

(** ** What no call changes *)

Lemma fetch_or_insert_consts user authn_method now s :
  let s' := (fetch_or_insert user authn_method now s).2 in
  _config s' = _config s ∧ _cache_max_size s' = _cache_max_size s ∧
  _keep_alive s' = _keep_alive s.
Proof.
  unfold fetch_or_insert, evict_back, make_client. unfold_st.
  repeat (case_match; simplify_eq; simpl; try done).
Qed.

Lemma call_consts o s :
  _config (call o s).2 = _config s ∧
  _cache_max_size (call o s).2 = _cache_max_size s ∧
  _keep_alive (call o s).2 = _keep_alive s.
Proof.
  destruct o as [user authn_method now|now|]; simpl.
  - pose proof (fetch_or_insert_consts user authn_method now s).
    by destruct (fetch_or_insert user authn_method now s).
  - by rewrite clean_stale_clients_spec.
  - by rewrite stop_spec.
Qed.

Lemma run_consts ops s :
  _config (run ops s) = _config s ∧
  _cache_max_size (run ops s) = _cache_max_size s ∧
  _keep_alive (run ops s) = _keep_alive s.
Proof.
  revert s; induction ops as [|o ops IH]; intros s; simpl; [done|].
  destruct (IH (call o s).2) as (-> & -> & ->). apply call_consts.
Qed.

(** ** Every handle in the index was returned by a call *)

Lemma call_cache_returned o s item :
  wf s → item ∈ _cache (call o s).2 →
  (∃ item0, item0 ∈ _cache s ∧ key item0 = key item
            ∧ tu_client item0 = tu_client item)
  ∨ (key item, tu_client item) ∈ (call o s).1.
Proof.
  intros Hwf. destruct o as [user authn_method now|now|]; simpl.
  - destruct (hash_find (name user) (_cache s)) as [[i hit]|] eqn:Hfind.
    + destruct (wf_hit_client s _ _ _ Hwf Hfind) as [cl Hcl].
      rewrite (fetch_or_insert_hit _ _ _ _ _ _ _ Hfind Hcl). proj_state.
      apply hash_find_Some in Hfind as [Hi Hkey].
      intros [->|Hin]%elem_of_cons.
      * right. simpl. rewrite Hkey. apply list_elem_of_singleton. done.
      * left. exists item. split_and!; try done.
        rewrite (delete_Permutation _ _ _ Hi). by right.
    + destruct (decide (length (_cache s) < _cache_max_size s
                        ∨ _cache s = [])%nat) as [Hroom|Hfull].
      * rewrite (fetch_or_insert_miss_room _ _ _ _ Hfind Hroom). proj_state.
        intros [->|Hin]%elem_of_cons; [right; simpl; left | left; eauto].
      * destruct (last (_cache s)) as [back|] eqn:Hlast.
        2:{ apply last_None in Hlast. tauto. }
        apply last_Some_snoc in Hlast as [l Hl].
        assert (Hge : (_cache_max_size s ≤ length (_cache s))%nat) by lia.
        rewrite (fetch_or_insert_miss_evict _ _ _ _ _ _ Hfind Hge Hl).
        proj_state. intros [->|Hin]%elem_of_cons; [right; simpl; left|].
        left. exists item. rewrite Hl, elem_of_app. auto.
  - rewrite clean_stale_clients_spec. proj_state.
    intros [_ Hin]%list_elem_of_filter. left; eauto.
  - rewrite stop_spec. proj_state. by intros ?%elem_of_nil.
Qed.

Lemma run_cache_returned ops s (R : list (string * client_ptr)) item :
  wf s →
  (∀ item0, item0 ∈ _cache s → (key item0, tu_client item0) ∈ R) →
  item ∈ _cache (run ops s) →
  (key item, tu_client item) ∈ R ++ returned ops s.
Proof.
  revert s R; induction ops as [|o ops IH]; intros s R Hwf HR; simpl.
  - rewrite app_nil_r. apply HR.
  - intros Hin. rewrite (assoc (++)).
    apply (IH (call o s).2); [by apply wf_call| |done].
    intros item0 Hin0. apply elem_of_app.
    destruct (call_cache_returned o s item0 Hwf Hin0)
      as [(item1 & Hin1 & <- & <-)|Hret]; auto.
Qed.

(** ** Counting stops *)

Lemma count_NoDup (c : client_ptr) (l : list client_ptr) :
  NoDup l →
  length (filter (λ c', c' = c) l) = if decide (c ∈ l) then 1%nat else 0%nat.
Proof.
  induction 1 as [|x l Hx Hl IH]; [done|].
  rewrite filter_cons. destruct (decide (x = c)) as [->|Hne].
  - simpl. rewrite IH, decide_False, decide_True by (done || left). done.
  - rewrite IH. destruct (decide (c ∈ l)) as [Hin|Hin].
    + rewrite decide_True by by right. done.
    + rewrite decide_False; [done|]. by intros [->|?]%elem_of_cons.
Qed.

Lemma wf_NoDup s :
  wf s →
  NoDup (handles (_cache s) ++ handles (_evicted_items s) ++ stopped (events s)).
Proof. intros (_ & -> & _). apply NoDup_seq. Qed.

(** In a well-formed state a client made so far was stopped once if it is
    in neither list, and never if it is in one of them. *)
Lemma wf_stop_count s c :
  wf s → (c < length (clients s))%nat →
  stop_count c s =
    if decide (c ∈ handles (_cache s) ++ handles (_evicted_items s))
    then 0%nat else 1%nat.
Proof.
  intros Hwf Hc. pose proof (wf_NoDup s Hwf) as Hnd.
  destruct Hwf as (_ & Hperm & _).
  rewrite (assoc (++)) in Hnd, Hperm.
  apply NoDup_app in Hnd as (_ & Hdisj & Hst).
  unfold stop_count. rewrite (count_NoDup _ _ Hst).
  assert (Hin : c ∈ (handles (_cache s) ++ handles (_evicted_items s))
                      ++ stopped (events s)).
  { rewrite Hperm. apply elem_of_seq. lia. }
  apply elem_of_app in Hin as [Hin|Hin].
  - rewrite (decide_False (P := c ∈ stopped (events s))) by by apply Hdisj.
    by rewrite decide_True.
  - rewrite (decide_True (P := c ∈ stopped (events s))) by done.
    rewrite decide_False; [done|]. intros Hin'. by apply (Hdisj c).
Qed.

(** ** The size bound *)

(** C1 (as amended): after any sequence of calls, a further
    [fetch_or_insert] leaves at most [max (max_size, 1)] entries in the
    index; the configured maximum itself never changes.  So the index holds
    at most [max_size] entries whenever [max_size] is at least one, and at
    most one entry when it is zero. *)
Theorem fetch_or_insert_size_bound cfg max keep_alive t ops
    user authn_method now :
  let s :=
    (fetch_or_insert user authn_method now
       (run ops (kafka_client_cache cfg max keep_alive t))).2 in
  (size s ≤ Nat.max max 1)%nat ∧ max_size s = max.
Proof.
  intros s.
  pose proof (wf_run ops _ (wf_init cfg max keep_alive t)) as Hwf.
  apply (wf_fetch_or_insert user authn_method now) in Hwf.
  destruct Hwf as (_ & _ & Hsize). fold s in Hsize.
  assert (Hmax : max_size s = max).
  { unfold max_size, s.
    destruct (fetch_or_insert_consts user authn_method now
                (run ops (kafka_client_cache cfg max keep_alive t)))
      as (_ & -> & _).
    by destruct (run_consts ops (kafka_client_cache cfg max keep_alive t))
      as (_ & -> & _). }
  split; [|done]. unfold size. unfold max_size in Hmax. by rewrite <- Hmax.
Qed.

(** ** Shutdown, sweep and the stop loop *)

(** [stop] run to completion, with nothing run while it is suspended:
    the index and [_evicted_items] end empty, the future is ready, and
    [stop] was called on every entry of the index, in order, and then on
    every entry of [_evicted_items]. *)
Lemma stop_drains_everything s :
  let r := stop s in
  r.1 = inr tt ∧ size r.2 = 0%nat ∧ _evicted_items r.2 = [] ∧
  stopped (events r.2) =
    stopped (events s) ++ handles (_cache s) ++ handles (_evicted_items s).
Proof.
  simpl. rewrite stop_spec. unfold size. proj_state.
  by rewrite !stopped_app, !stopped_stop_events.
Qed.

(** C8: whatever the outcome of each client's [stop], the removal loop
    completes without an exception on either list, it calls [stop] on
    every removed entry in turn, a failed [stop] leaves exactly its log
    line, and the futures of [clean_stale_clients] and [stop] are ready. *)
Theorem stop_failures_are_contained pred now s :
  let on_cache := remove_client_if _cache set_cache pred s in
  let on_evicted :=
    remove_client_if _evicted_items set_evicted_items pred s in
  let removed_c := filter (λ x, pred x) (_cache s) in
  let removed_e := filter (λ x, pred x) (_evicted_items s) in
  on_cache.1 = inr tt ∧ on_evicted.1 = inr tt ∧
  events on_cache.2 = events s ++ concat (stop_events <$> removed_c) ∧
  events on_evicted.2 = events s ++ concat (stop_events <$> removed_e) ∧
  stopped (events on_cache.2) = stopped (events s) ++ handles removed_c ∧
  stopped (events on_evicted.2) = stopped (events s) ++ handles removed_e ∧
  (clean_stale_clients now s).1 = inr tt ∧ (stop s).1 = inr tt.
Proof.
  simpl.
  rewrite remove_client_if_cache, remove_client_if_evicted_items,
    clean_stale_clients_spec, stop_spec.
  proj_state. by rewrite !stopped_app, !stopped_stop_events.
Qed.

(** Without the handler a failed [stop] would end the coroutine: the model
    of [client::stop] itself can fail. *)
Lemma client_stop_fails c ex s :
  stop_outcome c = Some ex → (client_stop c s).1 = inl ex.
Proof. intros H. unfold client_stop. unfold_st. simpl. by rewrite H. Qed.


(** ** Hits *)

Lemma set_scram_password_same cfg :
  set_scram_password (scram_password cfg) cfg = cfg.
Proof. by destruct cfg. Qed.

(** C2: after any sequence of calls, [fetch_or_insert] for an identity that
    is in the index returns the handle of that entry, which an earlier
    [fetch_or_insert] for the same identity returned; no client is made and
    every other client of the store is as it was; when the secret is the
    configured one the client store is as before, otherwise the client at
    that handle has the new secret as its password, with its mechanism and
    user name as they were. *)
Theorem fetch_or_insert_present cfg max keep_alive t ops
    user authn_method now :
  let s0 := kafka_client_cache cfg max keep_alive t in
  let s := run ops s0 in
  let r := fetch_or_insert user authn_method now s in
  name user ∈ key <$> _cache s →
  ∃ item cl cl',
    item ∈ _cache s ∧ key item = name user ∧
    clients s !! tu_client item = Some cl ∧
    r.1 = tu_client item ∧
    (name user, r.1) ∈ returned ops s0 ∧
    length (clients r.2) = length (clients s) ∧
    clients r.2 =
      (if decide (pass user = scram_password (config cl)) then clients s
       else <[r.1 := cl']> (clients s)) ∧
    clients r.2 !! r.1 = Some cl' ∧
    scram_password (config cl') = pass user ∧
    sasl_mechanism (config cl') = sasl_mechanism (config cl) ∧
    scram_username (config cl') = scram_username (config cl).
Proof.
  intros s0 s r Hin.
  assert (Hwf : wf s) by apply wf_run, wf_init.
  destruct (hash_find_is_Some _ _ Hin) as (i & item & Hfind).
  destruct (wf_hit_client s _ _ _ Hwf Hfind) as [cl Hcl].
  pose proof (fetch_or_insert_hit user authn_method now s i item cl Hfind Hcl)
    as Hr. fold r in Hr. simpl in Hr.
  pose proof Hfind as [Hi Hkey]%hash_find_Some.
  assert (Hitem : item ∈ _cache s) by by eapply list_elem_of_lookup_2.
  exists item, cl, (Client (set_scram_password (pass user) (config cl))).
  rewrite Hr. proj_state.
  split_and!; try done.
  - rewrite <- Hkey.
    apply (run_cache_returned ops s0 [] item); [apply wf_init| |done].
    by intros ? ?%elem_of_nil.
  - by destruct (bool_decide _); rewrite ?length_insert.
  - destruct (decide (pass user = scram_password (config cl))) as [Heq|Hne].
    + by rewrite bool_decide_false by by intros ?.
    + by rewrite bool_decide_true by by intros ?.
  - destruct (decide (pass user = scram_password (config cl))) as [Heq|Hne].
    + rewrite bool_decide_false by by intros ?.
      rewrite Hcl, Heq, set_scram_password_same. by destruct cl.
    + rewrite bool_decide_true by by intros ?.
      rewrite list_lookup_insert_eq; [done|]. by eapply lookup_lt_Some.
Qed.

(** ** Expiry *)

(** C4 (as amended): after any sequence of calls with keep-alive [T], a
    sweep at [now] treats the entry at any position [i] of the index whose
    expiry time [last_used + T] is representable in the clock's 64-bit
    nanoseconds by its age alone: if [last_used + T <= now] the entry
    leaves the index and [stop] is called on its client, once; otherwise
    the entry stays and its client is not stopped.  The index after the
    sweep is the index before without the entries that the test of the
    code selects. *)
Theorem clean_stale_clients_expiry cfg max T t ops now i item :
  let s := run ops (kafka_client_cache cfg max T t) in
  let s' := (clean_stale_clients now s).2 in
  _cache s !! i = Some item →
  expiry_representable T (last_used item) →
  _cache s' = filter (λ x, ¬ is_expired T now x) (_cache s) ∧
  stop_count (tu_client item) s = 0%nat ∧
  (if decide (last_used item + T ≤ now)
   then (item ∉ _cache s') ∧ stop_count (tu_client item) s' = 1%nat
   else (item ∈ _cache s') ∧ stop_count (tu_client item) s' = 0%nat).
Proof.
  intros s s' Hi Hrep.
  assert (Hwf : wf s) by apply wf_run, wf_init.
  assert (Hwf' : wf s') by by apply wf_clean_stale_clients.
  assert (HT : _keep_alive s = T).
  { unfold s.
    by destruct (run_consts ops (kafka_client_cache cfg max T t))
      as (_ & _ & ->). }
  assert (Hitem : item ∈ _cache s) by by eapply list_elem_of_lookup_2.
  assert (Hc : (tu_client item < length (clients s))%nat).
  { apply wf_handle_bound; [done|]. apply elem_of_app. by left. }
  assert (Hh : tu_client item ∈ handles (_cache s)).
  { by apply list_elem_of_fmap_2. }
  assert (Hcache :
    _cache s' = filter (λ x, ¬ is_expired T now x) (_cache s)).
  { unfold s'. rewrite clean_stale_clients_spec. proj_state.
    by rewrite HT. }
  assert (Hcl : clients s' = clients s).
  { unfold s'. by rewrite clean_stale_clients_spec. }
  assert (Hev : _evicted_items s' = []).
  { unfold s'. by rewrite clean_stale_clients_spec. }
  pose proof (is_expired_representable T now item Hrep) as Htest.
  split; [done|]. split.
  { rewrite wf_stop_count by done. rewrite decide_True; [done|].
    apply elem_of_app. by left. }
  rewrite (wf_stop_count s') by (done || by rewrite Hcl).
  rewrite Hev, app_nil_r.
  destruct (decide (last_used item + T ≤ now)) as [Hexp|Hlive].
  - assert (Hout : tu_client item ∉ handles (_cache s')).
    { rewrite Hcache. intros (x & Hx & [Hxl Hxin]%list_elem_of_filter)
        %list_elem_of_fmap.
      assert (x = item) as ->; [|by apply Hxl, Htest].
      pose proof (wf_NoDup s Hwf) as Hnd.
      apply NoDup_app in Hnd as (Hnd & _ & _).
      apply list_elem_of_lookup in Hxin as [j Hj].
      assert (i = j) as ->; [|congruence].
      eapply (NoDup_lookup _ i j (tu_client item) Hnd);
        unfold handles; rewrite list_lookup_fmap; [by rewrite Hi|].
      by rewrite Hj, Hx. }
    split; [|by rewrite decide_False].
    intros Hin. apply Hout. by apply list_elem_of_fmap_2.
  - assert (Hstay : item ∈ _cache s').
    { rewrite Hcache. apply list_elem_of_filter. split; [|done].
      by rewrite Htest. }
    split; [done|]. rewrite decide_True; [done|].
    by apply list_elem_of_fmap_2.
Qed.

(** ** Teardown happens once *)

(** C6: after any sequence of calls, [stop] was called on a client made so
    far exactly once if its entry has left both the index and
    [_evicted_items], and not at all while its entry is in one of them;
    after a further sweep every client that is not in the index was
    stopped exactly once, and after a further [stop] every client was. *)
Theorem client_stopped_exactly_once cfg max keep_alive t ops now c :
  let s := run ops (kafka_client_cache cfg max keep_alive t) in
  let swept := (clean_stale_clients now s).2 in
  (c < length (clients s))%nat →
  stop_count c s =
    (if decide (c ∈ handles (_cache s) ++ handles (_evicted_items s))
     then 0%nat else 1%nat) ∧
  stop_count c swept =
    (if decide (c ∈ handles (_cache swept)) then 0%nat else 1%nat) ∧
  stop_count c (stop s).2 = 1%nat.
Proof.
  intros s swept Hc.
  assert (Hwf : wf s) by apply wf_run, wf_init.
  split; [by apply wf_stop_count|]. split.
  - rewrite (wf_stop_count swept).
    + unfold swept. rewrite clean_stale_clients_spec. proj_state.
      by rewrite app_nil_r.
    + by apply wf_clean_stale_clients.
    + unfold swept. by rewrite clean_stale_clients_spec.
  - rewrite (wf_stop_count (stop s).2).
    + rewrite stop_spec. proj_state. case_decide as Hin; [|done].
      simpl in Hin. by apply elem_of_nil in Hin.
    + by apply wf_stop.
    + by rewrite stop_spec.
Qed.

(** ** The timer *)

(** C7: a [fetch_or_insert] that evicts (the identity is not in the index,
    the index is full and not empty) moves one entry to [_evicted_items]
    and re-arms the timer to [now + 1s] exactly when the timer is not armed
    or its deadline is later than [now + 1s]; otherwise the timer is as it
    was and no [rearm] is issued. *)
Theorem eviction_rearms_timer user authn_method now s :
  let s' := (fetch_or_insert user authn_method now s).2 in
  let t := _clean_and_evict_timer s in
  let window := now + one_second in
  name user ∉ key <$> _cache s →
  (max_size s ≤ size s)%nat →
  _cache s ≠ [] →
  length (_evicted_items s') = S (length (_evicted_items s)) ∧
  (if decide (armed t = false ∨ window < get_timeout t)
   then _clean_and_evict_timer s' = Timer true window ∧
        rearmed (events s') = rearmed (events s) ++ [window]
   else _clean_and_evict_timer s' = t ∧
        rearmed (events s') = rearmed (events s)).
Proof.
  intros s' t window Hk%hash_find_None Hfull Hne.
  destruct (last (_cache s)) as [back|] eqn:Hlast.
  2:{ by apply last_None in Hlast. }
  apply last_Some_snoc in Hlast as [l Hl].
  unfold s'.
  rewrite (fetch_or_insert_miss_evict _ _ _ _ _ _ Hk Hfull Hl). proj_state.
  fold t. fold window. rewrite length_app, Nat.add_1_r. split; [done|].
  rewrite !rearmed_app. simpl.
  assert (Hdec : should_rearm t window = true
                 ↔ armed t = false ∨ window < get_timeout t).
  { unfold should_rearm. destruct (armed t); simpl.
    - rewrite bool_decide_eq_true. split; [right; lia|intros [|]; [done|lia]].
    - split; auto. }
  destruct (decide (armed t = false ∨ window < get_timeout t)) as [Hyes|Hno].
  - apply Hdec in Hyes. rewrite Hyes. simpl. done.
  - destruct (should_rearm t window); [by destruct Hno; apply Hdec|].
    simpl. by rewrite app_nil_r.
Qed.

(** ** An identity in the index and in the buffer *)

(** C9: after any sequence of calls, if an entry for the identity waits in
    [_evicted_items] and the index has none, [fetch_or_insert] makes a
    client with a new handle, different from the waiting one, and puts its
    entry at the front of the index while the old entry stays in
    [_evicted_items].  Draining [_evicted_items] then stops the old handle
    once, does not stop the new one and leaves the index as it is.  A
    whole sweep stops the old handle once as well, and stops the new one
    only if its own expiry test removes the new entry. *)
Theorem evicted_identity_gets_new_client cfg max keep_alive t ops
    user authn_method now now' old :
  let s := run ops (kafka_client_cache cfg max keep_alive t) in
  let r := fetch_or_insert user authn_method now s in
  let drained :=
    (remove_client_if _evicted_items set_evicted_items always r.2).2 in
  let swept := (clean_stale_clients now' r.2).2 in
  old ∈ _evicted_items s →
  key old = name user →
  name user ∉ key <$> _cache s →
  r.1 ≠ tu_client old ∧
  r.1 = length (clients s) ∧
  length (clients r.2) = S (length (clients s)) ∧
  _cache r.2 !! 0%nat = Some (TimestampedUser (name user) r.1 now) ∧
  old ∈ _evicted_items r.2 ∧
  _cache drained = _cache r.2 ∧
  _evicted_items drained = [] ∧
  stop_count (tu_client old) drained = 1%nat ∧
  stop_count r.1 drained = 0%nat ∧
  stop_count (tu_client old) swept = 1%nat ∧
  stop_count r.1 swept =
    (if decide (TimestampedUser (name user) r.1 now ∈ _cache swept)
     then 0%nat else 1%nat).
Proof.
  intros s r drained swept Hold Hkey Hmiss.
  assert (Hwf : wf s) by apply wf_run, wf_init.
  assert (Hwfr : wf r.2) by apply wf_fetch_or_insert, Hwf.
  assert (Hbound : (tu_client old < length (clients s))%nat).
  { apply wf_handle_bound; [done|]. apply elem_of_app. by right. }
  pose proof Hmiss as Hfind%hash_find_None.
  set (new := TimestampedUser (name user) (length (clients s)) now).
  (* the shape of the state after the call, on either miss path *)
  assert (Hshape : r.1 = length (clients s) ∧ _cache r.2 !! 0%nat = Some new
                   ∧ length (clients r.2) = S (length (clients s))
                   ∧ old ∈ _evicted_items r.2).
  { destruct (decide (length (_cache s) < _cache_max_size s
                      ∨ _cache s = [])%nat) as [Hroom|Hfull].
    - unfold r. rewrite (fetch_or_insert_miss_room _ _ _ _ Hfind Hroom).
      proj_state. rewrite length_app, Nat.add_1_r. done.
    - destruct (last (_cache s)) as [back|] eqn:Hlast.
      2:{ apply last_None in Hlast. tauto. }
      apply last_Some_snoc in Hlast as [l Hl].
      assert (Hge : (_cache_max_size s ≤ length (_cache s))%nat) by lia.
      unfold r. rewrite (fetch_or_insert_miss_evict _ _ _ _ _ _ Hfind Hge Hl).
      proj_state. rewrite length_app, Nat.add_1_r.
      split_and!; try done. apply elem_of_app. by left. }
  destruct Hshape as (Hc & Hfront & Hlen & Hold').
  rewrite Hc in *.
  assert (Hnew : new ∈ _cache r.2) by by eapply list_elem_of_lookup_2.
  assert (Hwfd : wf drained).
  { unfold drained. rewrite remove_client_if_evicted_items.
    destruct Hwfr as (Hk & Hp & Hs).
    destruct (filter_always (_evicted_items r.2)) as [E1 E2].
    split_and!; proj_state; try done.
    rewrite E1, E2, stopped_app, stopped_stop_events. simpl.
    rewrite <- Hp. apply Permutation_app_head, (comm (++)). }
  assert (Hd : _cache drained = _cache r.2 ∧ _evicted_items drained = []
               ∧ clients drained = clients r.2).
  { unfold drained. rewrite remove_client_if_evicted_items. proj_state.
    by destruct (filter_always (_evicted_items r.2)) as [_ ->]. }
  destruct Hd as (Hdc & Hde & Hdcl).
  assert (Hwfs : wf swept) by by apply wf_clean_stale_clients.
  assert (Hs : _evicted_items swept = []
               ∧ clients swept = clients r.2
               ∧ _cache swept `sublist_of` _cache r.2).
  { unfold swept. rewrite clean_stale_clients_spec. proj_state.
    split_and!; try done. apply sublist_filter. }
  destruct Hs as (Hse & Hscl & Hsub).
  assert (Hnewin : new ∈ _cache swept ↔ length (clients s) ∈ handles (_cache swept)).
  { split.
    - intros Hin. by apply (list_elem_of_fmap_2 tu_client _ new).
    - intros (x & Hx & Hxin)%list_elem_of_fmap.
      assert (x = new) as ->; [|done].
      pose proof (wf_NoDup r.2 Hwfr) as Hnd.
      apply NoDup_app in Hnd as (Hnd & _ & _).
      apply (NoDup_fmap_elem_eq tu_client (_cache r.2)); try done.
      by eapply elem_of_sublist. }
  (* the old handle is in neither list once the buffer is gone *)
  assert (Hnotin : ∀ l, l `sublist_of` _cache r.2 →
                        tu_client old ∉ handles l).
  { intros l Hl Hin.
    pose proof (wf_NoDup r.2 Hwfr) as Hnd.
    apply NoDup_app in Hnd as (_ & Hdisj & _).
    apply (Hdisj (tu_client old)).
    - eapply elem_of_sublist; [apply Hin|]. by apply fmap_sublist.
    - apply elem_of_app. left. by apply list_elem_of_fmap_2. }
  split_and!; try done.
  - lia.
  - rewrite (wf_stop_count drained) by (done || rewrite Hdcl; lia).
    rewrite Hde, app_nil_r, Hdc. rewrite decide_False; [done|].
    by apply Hnotin.
  - rewrite (wf_stop_count drained) by (done || rewrite Hdcl; lia).
    rewrite decide_True; [done|]. apply elem_of_app. left.
    rewrite Hdc. by apply (list_elem_of_fmap_2 tu_client _ new).
  - rewrite (wf_stop_count swept) by (done || rewrite Hscl; lia).
    rewrite Hse, app_nil_r. rewrite decide_False; [done|].
    by apply Hnotin.
  - rewrite (wf_stop_count swept) by (done || rewrite Hscl; lia).
    rewrite Hse, app_nil_r. apply decide_ext. symmetry. exact Hnewin.
Qed.

(** ** A worked run *)

(** C3: with [max_size = 2], from the empty cache: after A and B the index
    holds two entries; C evicts A, and only A, into [_evicted_items] and
    the index is C, B; asking for B again returns B's handle and brings B
    to the front; D then evicts C, and the index ends as D, B. *)
Theorem lru_scenario cfg keep_alive t pA pB pC pB' pD mA mB mC mB' mD
    n1 n2 n3 n4 n5 :
  let s0 := kafka_client_cache cfg 2 keep_alive t in
  let r1 := fetch_or_insert (Credential "A" pA) mA n1 s0 in
  let r2 := fetch_or_insert (Credential "B" pB) mB n2 r1.2 in
  let r3 := fetch_or_insert (Credential "C" pC) mC n3 r2.2 in
  let r4 := fetch_or_insert (Credential "B" pB') mB' n4 r3.2 in
  let r5 := fetch_or_insert (Credential "D" pD) mD n5 r4.2 in
  (size r2.2 = 2%nat ∧ key <$> _cache r2.2 = ["B"; "A"]
   ∧ _evicted_items r2.2 = []) ∧
  (size r3.2 = 2%nat ∧ key <$> _cache r3.2 = ["C"; "B"]
   ∧ _evicted_items r3.2 = [TimestampedUser "A" r1.1 n1]) ∧
  (r4.1 = r2.1 ∧ _cache r4.2 !! 0%nat = Some (TimestampedUser "B" r2.1 n4)
   ∧ key <$> _cache r4.2 = ["B"; "C"]
   ∧ _evicted_items r4.2 = _evicted_items r3.2) ∧
  (size r5.2 = 2%nat ∧ key <$> _cache r5.2 = ["D"; "B"]
   ∧ _evicted_items r5.2 =
       [TimestampedUser "A" r1.1 n1; TimestampedUser "C" r3.1 n3]).
Proof.
  intros s0 r1 r2 r3 r4 r5.
  assert (H1 : r1 = r1) by done. unfold r1 at 2 in H1.
  rewrite fetch_or_insert_miss_room in H1 by (done || by right).
  simpl in H1.
  assert (H2 : r2 = r2) by done. unfold r2 at 2 in H2.
  rewrite H1 in H2.
  rewrite fetch_or_insert_miss_room in H2 by (done || left; simpl; lia).
  simpl in H2.
  assert (H3 : r3 = r3) by done. unfold r3 at 2 in H3.
  rewrite H2 in H3.
  erewrite (fetch_or_insert_miss_evict _ _ _ _ [_] _) in H3
    by (done || simpl; lia).
  simpl in H3.
  assert (H4 : r4 = r4) by done. unfold r4 at 2 in H4.
  rewrite H3 in H4.
  erewrite (fetch_or_insert_hit _ _ _ _ 1%nat) in H4 by done.
  simpl in H4.
  assert (H5 : r5 = r5) by done. unfold r5 at 2 in H5.
  rewrite H4 in H5.
  erewrite (fetch_or_insert_miss_evict _ _ _ _ [_] _) in H5
    by (done || simpl; lia).
  simpl in H5.
  rewrite H1, H2, H3, H4, H5. done.
Qed.

(** ** Further properties of the code *)

(** *** Helpers *)

Lemma wf_reachable cfg max keep_alive t ops :
  wf (run ops (kafka_client_cache cfg max keep_alive t)).
Proof. apply wf_run, wf_init. Qed.

(** The three paths through [fetch_or_insert] in a well-formed state. *)
Lemma fetch_or_insert_cases user s :
  wf s →
  (∃ i item cl, hash_find (name user) (_cache s) = Some (i, item)
                ∧ clients s !! tu_client item = Some cl)
  ∨ (hash_find (name user) (_cache s) = None
     ∧ ((length (_cache s) < _cache_max_size s)%nat ∨ _cache s = []))
  ∨ (hash_find (name user) (_cache s) = None
     ∧ (_cache_max_size s ≤ length (_cache s))%nat
     ∧ ∃ l item, _cache s = l ++ [item]).
Proof.
  intros Hwf.
  destruct (hash_find (name user) (_cache s)) as [[i item]|] eqn:Hfind.
  - left. destruct (wf_hit_client s _ _ _ Hwf Hfind) as [cl Hcl]. eauto.
  - right.
    destruct (decide (length (_cache s) < _cache_max_size s
                      ∨ _cache s = [])%nat) as [Hroom|Hfull]; [by left|].
    right. destruct (last (_cache s)) as [back|] eqn:Hlast.
    + apply last_Some_snoc in Hlast as [l Hl]. split_and!; [done|lia|eauto].
    + apply last_None in Hlast. tauto.
Qed.

Lemma hash_find_head k item l :
  key item = k → hash_find k (item :: l) = Some (0%nat, item).
Proof. intros H. simpl. by rewrite decide_True. Qed.

(** After a call on a well-formed state the entry of the identity is the
    first of the index and carries the handle returned. *)
Lemma wf_fetch_or_insert_front user authn_method now s :
  wf s →
  let r := fetch_or_insert user authn_method now s in
  ∃ l, _cache r.2 = TimestampedUser (name user) r.1 now :: l.
Proof.
  intros Hwf r. unfold r.
  destruct (fetch_or_insert_cases user s Hwf)
    as [(i & item & cl & Hfind & Hcl) | [[Hfind Hroom]
       | (Hfind & Hfull & l & item & Hl)]].
  - rewrite (fetch_or_insert_hit _ _ _ _ _ _ _ Hfind Hcl). proj_state.
    apply hash_find_Some in Hfind as [_ <-]. eauto.
  - rewrite (fetch_or_insert_miss_room _ _ _ _ Hfind Hroom). proj_state.
    eauto.
  - rewrite (fetch_or_insert_miss_evict _ _ _ _ _ _ Hfind Hfull Hl).
    proj_state. eauto.
Qed.

(** *** Insert and look up *)

(** X1: after any sequence of calls, a [fetch_or_insert] leaves the entry of
    the identity asked for at the front of the index, with the handle it
    returned and [last_used = now]; the hashed lookup finds that entry, and
    the handle points to a client of the store. *)
Theorem fetch_or_insert_then_find cfg max keep_alive t ops
    user authn_method now :
  let s := run ops (kafka_client_cache cfg max keep_alive t) in
  let r := fetch_or_insert user authn_method now s in
  let entry := TimestampedUser (name user) r.1 now in
  _cache r.2 !! 0%nat = Some entry ∧
  hash_find (name user) (_cache r.2) = Some (0%nat, entry) ∧
  is_Some (clients r.2 !! r.1).
Proof.
  intros s r entry.
  assert (Hwf : wf s) by apply wf_reachable.
  destruct (wf_fetch_or_insert_front user authn_method now s Hwf) as [l Hl].
  fold r in Hl. fold entry in Hl. rewrite Hl. split_and!; [done| |].
  - by apply hash_find_head.
  - apply lookup_lt_is_Some_2.
    apply (wf_handle_bound r.2 entry); [by apply wf_fetch_or_insert|].
    rewrite Hl. apply elem_of_app. left. left.
Qed.

(** X2: after any sequence of calls, two [fetch_or_insert] calls in a row
    for one identity return the same handle, whatever secrets, methods and
    clock readings they carry; the second call makes no client and leaves
    the number of entries and [_evicted_items] as they are. *)
Theorem fetch_or_insert_twice cfg max keep_alive t ops
    user authn_method now secret' authn_method' now' :
  let s := run ops (kafka_client_cache cfg max keep_alive t) in
  let r1 := fetch_or_insert user authn_method now s in
  let r2 :=
    fetch_or_insert (Credential (name user) secret') authn_method' now' r1.2 in
  r2.1 = r1.1 ∧
  length (clients r2.2) = length (clients r1.2) ∧
  size r2.2 = size r1.2 ∧
  _evicted_items r2.2 = _evicted_items r1.2.
Proof.
  intros s r1 r2.
  assert (Hwf : wf s) by apply wf_reachable.
  assert (Hwf1 : wf r1.2) by by apply wf_fetch_or_insert.
  destruct (wf_fetch_or_insert_front user authn_method now s Hwf) as [l Hl].
  fold r1 in Hl.
  set (u' := Credential (name user) secret').
  assert (Hfind : hash_find (name u') (_cache r1.2)
                  = Some (0%nat, TimestampedUser (name user) r1.1 now)).
  { rewrite Hl. by apply hash_find_head. }
  destruct (wf_hit_client _ _ _ _ Hwf1 Hfind) as [cl Hcl].
  unfold r2. fold u'.
  rewrite (fetch_or_insert_hit _ _ _ _ _ _ _ Hfind Hcl). proj_state.
  split_and!; try done.
  - by destruct (bool_decide _); rewrite ?length_insert.
  - unfold size. proj_state. rewrite Hl. done.
Qed.

(** X3: after any sequence of calls, [fetch_or_insert] makes a client
    exactly when the identity is not in the index, and the index grows, by
    one entry, exactly when moreover it is empty or below [max_size]. *)
Theorem fetch_or_insert_growth cfg max keep_alive t ops
    user authn_method now :
  let s := run ops (kafka_client_cache cfg max keep_alive t) in
  let r := fetch_or_insert user authn_method now s in
  length (clients r.2) =
    (if decide (name user ∈ key <$> _cache s) then length (clients s)
     else S (length (clients s))) ∧
  size r.2 =
    (if decide (name user ∈ key <$> _cache s) then size s
     else if decide (size s = 0 ∨ size s < max)%nat then S (size s)
     else size s).
Proof.
  intros s r.
  assert (Hwf : wf s) by apply wf_reachable.
  assert (Hmax : _cache_max_size s = max).
  { unfold s.
    by destruct (run_consts ops (kafka_client_cache cfg max keep_alive t))
      as (_ & -> & _). }
  unfold r, size.
  destruct (fetch_or_insert_cases user s Hwf)
    as [(i & item & cl & Hfind & Hcl) | [[Hfind Hroom]
       | (Hfind & Hfull & l & item & Hl)]].
  - rewrite (fetch_or_insert_hit _ _ _ _ _ _ _ Hfind Hcl). proj_state.
    pose proof Hfind as [Hi Hk]%hash_find_Some.
    rewrite !decide_True.
    + split; [by destruct (bool_decide _); rewrite ?length_insert|].
      simpl. rewrite length_delete by eauto.
      apply lookup_lt_Some in Hi. lia.
    + rewrite <- Hk. apply list_elem_of_fmap_2.
      by eapply list_elem_of_lookup_2.
    + rewrite <- Hk. apply list_elem_of_fmap_2.
      by eapply list_elem_of_lookup_2.
  - rewrite (fetch_or_insert_miss_room _ _ _ _ Hfind Hroom). proj_state.
    apply hash_find_None in Hfind.
    rewrite !(decide_False (P := name user ∈ key <$> _cache s)) by done.
    rewrite length_app, Nat.add_1_r. split; [done|].
    rewrite decide_True; [done|].
    destruct Hroom as [? | ->]; [right; lia | by left].
  - rewrite (fetch_or_insert_miss_evict _ _ _ _ _ _ Hfind Hfull Hl).
    proj_state. apply hash_find_None in Hfind.
    rewrite !(decide_False (P := name user ∈ key <$> _cache s)) by done.
    rewrite length_app, Nat.add_1_r. split; [done|].
    rewrite Hl, length_app in *. simpl in *.
    rewrite decide_False by lia. lia.
Qed.

(** X4: [fetch_or_insert] never calls [client::stop], in any state: an
    evicted client is only set aside. *)
Theorem fetch_or_insert_stops_nothing user authn_method now s :
  stopped (events (fetch_or_insert user authn_method now s).2)
  = stopped (events s).
Proof.
  unfold fetch_or_insert, evict_back, make_client. unfold_st.
  repeat (case_match; simplify_eq; simpl;
          rewrite ?stopped_app; simpl; rewrite ?app_nil_r; try done).
Qed.

(** X5: after any sequence of calls, the handle that [fetch_or_insert]
    returns belongs to a client on which [stop] has never been called and
    which does not wait in [_evicted_items]. *)
Theorem fetch_or_insert_returns_live_client cfg max keep_alive t ops
    user authn_method now :
  let s := run ops (kafka_client_cache cfg max keep_alive t) in
  let r := fetch_or_insert user authn_method now s in
  stop_count r.1 r.2 = 0%nat ∧
  (r.1 ∉ stopped (events r.2)) ∧
  (r.1 ∉ handles (_evicted_items r.2)).
Proof.
  intros s r.
  assert (Hwf : wf s) by apply wf_reachable.
  assert (Hwf1 : wf r.2) by by apply wf_fetch_or_insert.
  destruct (wf_fetch_or_insert_front user authn_method now s Hwf) as [l Hl].
  fold r in Hl.
  assert (Hin : r.1 ∈ handles (_cache r.2)).
  { rewrite Hl. simpl. left. }
  pose proof (wf_NoDup r.2 Hwf1) as Hnd.
  apply NoDup_app in Hnd as (_ & Hdisj & _).
  specialize (Hdisj r.1 Hin).
  rewrite not_elem_of_app in Hdisj. destruct Hdisj as [Hev Hst].
  split_and!; try done.
  rewrite (wf_stop_count r.2); [|done|].
  - rewrite decide_True; [done|]. apply elem_of_app. by left.
  - apply (wf_handle_bound r.2 (TimestampedUser (name user) r.1 now) Hwf1).
    rewrite Hl. apply elem_of_app. left. left.
Qed.

(** *** Eviction and the timer *)

(** X6: in any state, when the identity is not in the index and the index
    is full, [fetch_or_insert] moves the last entry of the index, as it
    is, to the end of [_evicted_items], keeps the other entries in their
    order behind the new one, and makes the new client at a fresh
    location. *)
Theorem fetch_or_insert_evicts_back user authn_method now s l item :
  let r := fetch_or_insert user authn_method now s in
  name user ∉ key <$> _cache s →
  (max_size s ≤ size s)%nat →
  _cache s = l ++ [item] →
  r.1 = length (clients s) ∧
  _cache r.2 = TimestampedUser (name user) r.1 now :: l ∧
  _evicted_items r.2 = _evicted_items s ++ [item] ∧
  size r.2 = size s.
Proof.
  intros r Hk%hash_find_None Hfull Hl. unfold r.
  rewrite (fetch_or_insert_miss_evict _ _ _ _ _ _ Hk Hfull Hl).
  unfold size. proj_state. split_and!; try done.
  rewrite Hl, length_app. simpl. lia.
Qed.

(** X7: after any sequence of calls, a [fetch_or_insert] that finds the
    identity, or finds the index empty or below [max_size], leaves the
    timer, [_evicted_items] and the record of [rearm] calls as they
    are. *)
Theorem fetch_or_insert_without_eviction cfg max keep_alive t ops
    user authn_method now :
  let s := run ops (kafka_client_cache cfg max keep_alive t) in
  let r := fetch_or_insert user authn_method now s in
  name user ∈ key <$> _cache s ∨ (size s < max)%nat ∨ size s = 0%nat →
  _clean_and_evict_timer r.2 = _clean_and_evict_timer s ∧
  _evicted_items r.2 = _evicted_items s ∧
  rearmed (events r.2) = rearmed (events s).
Proof.
  intros s r Hno.
  assert (Hwf : wf s) by apply wf_reachable.
  assert (Hmax : _cache_max_size s = max).
  { unfold s.
    by destruct (run_consts ops (kafka_client_cache cfg max keep_alive t))
      as (_ & -> & _). }
  unfold r.
  destruct (fetch_or_insert_cases user s Hwf)
    as [(i & item & cl & Hfind & Hcl) | [[Hfind Hroom]
       | (Hfind & Hfull & l & item & Hl)]].
  - rewrite (fetch_or_insert_hit _ _ _ _ _ _ _ Hfind Hcl). proj_state.
    rewrite rearmed_app. simpl. by rewrite app_nil_r.
  - rewrite (fetch_or_insert_miss_room _ _ _ _ Hfind Hroom). proj_state.
    rewrite rearmed_app. simpl. by rewrite app_nil_r.
  - exfalso. apply hash_find_None in Hfind. unfold size in Hno.
    rewrite Hl, length_app in *. simpl in *.
    destruct Hno as [? | [? | ?]]; [done | lia | lia].
Qed.

(** X8: [clean_stale_clients] and [stop] never touch the timer: in any
    state they leave it as it is, armed or not, and issue no [rearm]; [stop]
    also leaves the client store as it is. *)
Theorem sweep_and_stop_leave_timer now s :
  let swept := (clean_stale_clients now s).2 in
  let halted := (stop s).2 in
  _clean_and_evict_timer swept = _clean_and_evict_timer s ∧
  rearmed (events swept) = rearmed (events s) ∧
  _clean_and_evict_timer halted = _clean_and_evict_timer s ∧
  rearmed (events halted) = rearmed (events s) ∧
  clients halted = clients s.
Proof.
  simpl. rewrite clean_stale_clients_spec, stop_spec. proj_state.
  by rewrite !rearmed_app, !rearmed_stop_events, !app_nil_r.
Qed.

(** X9: in any state, after a [fetch_or_insert] that evicts, the timer is
    armed and due no later than [now + 1s]. *)
Theorem eviction_schedules_sweep user authn_method now s :
  let r := fetch_or_insert user authn_method now s in
  name user ∉ key <$> _cache s →
  (max_size s ≤ size s)%nat →
  _cache s ≠ [] →
  armed (_clean_and_evict_timer r.2) = true ∧
  get_timeout (_clean_and_evict_timer r.2) ≤ now + one_second.
Proof.
  intros r Hk%hash_find_None Hfull Hne.
  destruct (last (_cache s)) as [back|] eqn:Hlast.
  2:{ by apply last_None in Hlast. }
  apply last_Some_snoc in Hlast as [l Hl]. unfold r.
  rewrite (fetch_or_insert_miss_evict _ _ _ _ _ _ Hk Hfull Hl). proj_state.
  unfold should_rearm.
  destruct (armed (_clean_and_evict_timer s)) eqn:Harmed; simpl; [|done].
  case_bool_decide; simpl; [done|]. split; [done|lia].
Qed.

(** X10: in any state, [fetch_or_insert] never disarms an armed timer and
    never moves its deadline further out. *)
Theorem fetch_or_insert_never_postpones user authn_method now s :
  let r := fetch_or_insert user authn_method now s in
  armed (_clean_and_evict_timer s) = true →
  armed (_clean_and_evict_timer r.2) = true ∧
  get_timeout (_clean_and_evict_timer r.2) ≤
    get_timeout (_clean_and_evict_timer s).
Proof.
  intros r Harmed. unfold r.
  unfold fetch_or_insert, evict_back, make_client, should_rearm. unfold_st.
  repeat (case_match; simplify_eq; simpl in *; try done);
    try (split; [done|lia]).
  all: rewrite Harmed in *; simpl in *.
  all: case_bool_decide; simplify_eq; simpl; split; try done; lia.
Qed.

(** *** Sweeps *)

Lemma filter_Forall_id {A} (P : A → Prop) `{!∀ x, Decision (P x)} l :
  Forall P l → filter P l = l.
Proof.
  induction 1 as [|x l Hx Hl IH]; [done|].
  by rewrite filter_cons_True, IH.
Qed.

Lemma filter_Forall_nil {A} (P : A → Prop) `{!∀ x, Decision (P x)} l :
  Forall (λ x, ¬ P x) l → filter P l = [].
Proof.
  induction 1 as [|x l Hx Hl IH]; [done|].
  by rewrite filter_cons_False, IH.
Qed.

(** X11: in any state, a sweep at [now] calls [stop] first on the entries
    of the index that the expiry test of the code selects, front to back,
    then on every entry of [_evicted_items] in the order of their
    eviction, however recently evicted, and leaves [_evicted_items]
    empty. *)
Theorem clean_stale_clients_stop_order now s :
  let r := clean_stale_clients now s in
  stopped (events r.2) =
    stopped (events s) ++
    handles (filter (λ x, is_expired (_keep_alive s) now x) (_cache s)) ++
    handles (_evicted_items s) ∧
  _evicted_items r.2 = [].
Proof.
  simpl. rewrite clean_stale_clients_spec. proj_state.
  by rewrite !stopped_app, !stopped_stop_events.
Qed.

(** X12: in any state, a second sweep at the same or an earlier clock
    reading does nothing: it removes no entry, calls no [stop] and writes
    no log line. *)
Theorem clean_stale_clients_again now now' s :
  let swept := (clean_stale_clients now s).2 in
  now' ≤ now →
  clean_stale_clients now' swept = (inr tt, swept).
Proof.
  intros swept Hle. unfold swept.
  rewrite !clean_stale_clients_spec. proj_state.
  set (live := filter (λ x, ¬ is_expired (_keep_alive s) now x) (_cache s)).
  assert (Hlive : Forall (λ x, ¬ is_expired (_keep_alive s) now' x) live).
  { apply Forall_forall. intros x [Hx _]%list_elem_of_filter Hx'.
    apply Hx. by apply (is_expired_mono _ now' now). }
  rewrite (filter_Forall_id _ live Hlive).
  rewrite (filter_Forall_nil (λ x, is_expired (_keep_alive s) now' x) live).
  - simpl. by rewrite !app_nil_r.
  - eapply Forall_impl; [exact Hlive|]. naive_solver.
Qed.

(** X13: in any state, a second [stop] does nothing: no client is stopped
    again. *)
Theorem stop_again s : stop (stop s).2 = (inr tt, (stop s).2).
Proof. rewrite !stop_spec. proj_state. simpl. by rewrite !app_nil_r. Qed.

(** X14: in any state, a sweep at a time when every entry of the index has
    expired, its expiry time being representable in the clock's 64-bit
    nanoseconds, does what [stop] does. *)
Theorem clean_stale_clients_all_expired now s :
  Forall (λ x, expiry_representable (_keep_alive s) (last_used x)
               ∧ last_used x + _keep_alive s ≤ now) (_cache s) →
  clean_stale_clients now s = stop s.
Proof.
  intros Hall. rewrite clean_stale_clients_spec, stop_spec.
  assert (Hexp : Forall (λ x, is_expired (_keep_alive s) now x) (_cache s)).
  { eapply Forall_impl; [exact Hall|]. intros x [Hrep Hx].
    by apply is_expired_representable. }
  rewrite (filter_Forall_id _ _ Hexp).
  rewrite (filter_Forall_nil (λ x, ¬ is_expired (_keep_alive s) now x)).
  - done.
  - eapply Forall_impl; [exact Hexp|]. naive_solver.
Qed.

(** X15: in any state, a sweep at a time when no entry of the index has
    expired, the expiry times being representable in the clock's 64-bit
    nanoseconds, and nothing waits in [_evicted_items] changes nothing at
    all. *)
Theorem clean_stale_clients_nothing_to_do now s :
  Forall (λ x, expiry_representable (_keep_alive s) (last_used x)
               ∧ now < last_used x + _keep_alive s) (_cache s) →
  _evicted_items s = [] →
  clean_stale_clients now s = (inr tt, s).
Proof.
  intros Hall Hev. rewrite clean_stale_clients_spec.
  assert (Hlive : Forall (λ x, ¬ is_expired (_keep_alive s) now x) (_cache s)).
  { eapply Forall_impl; [exact Hall|]. intros x [Hrep Hx].
    rewrite (is_expired_representable _ _ _ Hrep). lia. }
  rewrite (filter_Forall_id _ _ Hlive).
  rewrite (filter_Forall_nil (λ x, is_expired (_keep_alive s) now x)).
  - destruct s; simpl in *. subst. simpl. by rewrite app_nil_r.
  - eapply Forall_impl; [exact Hlive|]. naive_solver.
Qed.

(** *** What holds after every sequence of calls *)

(** X16: after any sequence of calls no identity has two entries in the
    index, so the refusal of [emplace_front] never applies, and two
    entries of the index or of [_evicted_items] never share a client. *)
Theorem index_entries_unique cfg max keep_alive t ops :
  let s := run ops (kafka_client_cache cfg max keep_alive t) in
  NoDup (key <$> _cache s) ∧
  NoDup (handles (_cache s) ++ handles (_evicted_items s)).
Proof.
  intros s. assert (Hwf : wf s) by apply wf_reachable.
  split; [by destruct Hwf|].
  pose proof (wf_NoDup s Hwf) as Hnd. rewrite (assoc (++)) in Hnd.
  by apply NoDup_app in Hnd as (? & _).
Qed.

(** X17: after any sequence of calls every client made so far is accounted
    for: the number of clients is the number of index entries plus the
    number of entries in [_evicted_items] plus the number of [stop] calls
    made. *)
Theorem clients_accounted_for cfg max keep_alive t ops :
  let s := run ops (kafka_client_cache cfg max keep_alive t) in
  length (clients s) =
    (size s + length (_evicted_items s) + length (stopped (events s)))%nat.
Proof.
  intros s. destruct (wf_reachable cfg max keep_alive t ops)
    as (_ & Hperm & _). fold s in Hperm.
  apply Permutation_length in Hperm.
  rewrite length_seq, !length_app in Hperm. unfold handles in Hperm.
  rewrite !length_fmap in Hperm. unfold size. lia.
Qed.

(** X18: a touch keeps an entry alive.  After any sequence of calls, if
    [fetch_or_insert] at [now] is followed by a sweep earlier than
    [now + keep_alive], that time being representable in the clock's
    64-bit nanoseconds, the next [fetch_or_insert] for the identity
    returns the same handle and makes no client. *)
Theorem touch_survives_sweep cfg max keep_alive t ops
    user authn_method now now' secret'' authn_method'' now'' :
  let s := run ops (kafka_client_cache cfg max keep_alive t) in
  let r1 := fetch_or_insert user authn_method now s in
  let swept := (clean_stale_clients now' r1.2).2 in
  let r2 :=
    fetch_or_insert (Credential (name user) secret'') authn_method'' now''
      swept in
  expiry_representable keep_alive now →
  now' < now + keep_alive →
  r2.1 = r1.1 ∧ length (clients r2.2) = length (clients r1.2).
Proof.
  intros s r1 swept r2 Hrep Hlive.
  assert (Hwf : wf s) by apply wf_reachable.
  assert (Hwf1 : wf r1.2) by by apply wf_fetch_or_insert.
  assert (Hwf2 : wf swept) by by apply wf_clean_stale_clients.
  assert (HT : _keep_alive r1.2 = keep_alive).
  { unfold r1.
    destruct (fetch_or_insert_consts user authn_method now s) as (_ & _ & ->).
    unfold s.
    by destruct (run_consts ops (kafka_client_cache cfg max keep_alive t))
      as (_ & _ & ->). }
  destruct (wf_fetch_or_insert_front user authn_method now s Hwf) as [l Hl].
  fold r1 in Hl.
  set (entry := TimestampedUser (name user) r1.1 now) in *.
  assert (Hsw : ∃ l', _cache swept = entry :: l'
                      ∧ clients swept = clients r1.2).
  { unfold swept. rewrite clean_stale_clients_spec. proj_state.
    rewrite Hl, filter_cons_True; [eauto|].
    rewrite HT, (is_expired_representable keep_alive now' entry Hrep).
    simpl. lia. }
  destruct Hsw as (l' & Hl' & Hcl').
  set (u'' := Credential (name user) secret'').
  assert (Hfind : hash_find (name u'') (_cache swept) = Some (0%nat, entry)).
  { rewrite Hl'. by apply hash_find_head. }
  destruct (wf_hit_client _ _ _ _ Hwf2 Hfind) as [cl Hcl].
  unfold r2. fold u''.
  rewrite (fetch_or_insert_hit _ _ _ _ _ _ _ Hfind Hcl). proj_state.
  split; [done|]. rewrite <- Hcl'.
  by destruct (bool_decide _); rewrite ?length_insert.
Qed.

(** X19: after any sequence of calls, once a sweep has found the entry of
    an identity expired, its expiry time being representable in the
    clock's 64-bit nanoseconds, its client has been stopped, once, and the
    next
    [fetch_or_insert] for the identity makes a new client at a fresh
    location instead of returning the stopped one. *)
Theorem expired_identity_gets_new_client cfg max keep_alive t ops
    user authn_method now now' item :
  let s := run ops (kafka_client_cache cfg max keep_alive t) in
  let swept := (clean_stale_clients now s).2 in
  let r := fetch_or_insert user authn_method now' swept in
  item ∈ _cache s →
  key item = name user →
  expiry_representable keep_alive (last_used item) →
  last_used item + keep_alive ≤ now →
  stop_count (tu_client item) swept = 1%nat ∧
  r.1 = length (clients s) ∧
  r.1 ≠ tu_client item ∧
  length (clients r.2) = S (length (clients s)).
Proof.
  intros s swept r Hin Hkey Hrep Hexp.
  assert (Hwf : wf s) by apply wf_reachable.
  assert (Hwf1 : wf swept) by by apply wf_clean_stale_clients.
  assert (HT : _keep_alive s = keep_alive).
  { unfold s.
    by destruct (run_consts ops (kafka_client_cache cfg max keep_alive t))
      as (_ & _ & ->). }
  assert (Hbound : (tu_client item < length (clients s))%nat).
  { apply wf_handle_bound; [done|]. apply elem_of_app. by left. }
  assert (Hsw : _cache swept =
                  filter (λ x, ¬ is_expired keep_alive now x) (_cache s)
                ∧ _evicted_items swept = [] ∧ clients swept = clients s).
  { unfold swept. rewrite clean_stale_clients_spec. proj_state.
    by rewrite HT. }
  destruct Hsw as (Hc & He & Hcl).
  assert (Hgone : ∀ x, x ∈ _cache swept → x ≠ item).
  { intros x Hx ->. rewrite Hc in Hx.
    apply list_elem_of_filter in Hx as [Hlive _]. apply Hlive.
    by apply is_expired_representable. }
  assert (Hcount : stop_count (tu_client item) swept = 1%nat).
  { rewrite (wf_stop_count swept) by (done || by rewrite Hcl).
    rewrite He, app_nil_r. rewrite decide_False; [done|].
    intros (x & Hx & Hxin)%list_elem_of_fmap.
    apply (Hgone x Hxin).
    pose proof (wf_NoDup s Hwf) as Hnd.
    apply NoDup_app in Hnd as (Hnd & _ & _).
    apply (NoDup_fmap_elem_eq tu_client (_cache s)); try done.
    rewrite Hc in Hxin. by apply list_elem_of_filter in Hxin as [_ ?]. }
  assert (Hmiss : hash_find (name user) (_cache swept) = None).
  { apply hash_find_None. intros (x & Hx & Hxin)%list_elem_of_fmap.
    apply (Hgone x Hxin). destruct Hwf as (Hkeys & _).
    apply (NoDup_fmap_elem_eq key (_cache s)); try done; [|congruence].
    rewrite Hc in Hxin. by apply list_elem_of_filter in Hxin as [_ ?]. }
  assert (Hr : r.1 = length (clients s)
               ∧ length (clients r.2) = S (length (clients s))).
  { unfold r.
    destruct (fetch_or_insert_cases user swept Hwf1)
      as [(i & hit & cl & Hfind & _) | [[Hfind Hroom]
         | (Hfind & Hfull & l & back & Hl)]]; [congruence| |].
    - rewrite (fetch_or_insert_miss_room _ _ _ _ Hfind Hroom). proj_state.
      by rewrite length_app, Nat.add_1_r, Hcl.
    - rewrite (fetch_or_insert_miss_evict _ _ _ _ _ _ Hfind Hfull Hl).
      proj_state. by rewrite length_app, Nat.add_1_r, Hcl. }
  destruct Hr as [Hr1 Hr2]. split_and!; try done. lia.
Qed.

(** X20: with [max_size] zero or one, after any sequence of calls a
    [fetch_or_insert] leaves exactly one entry in the index, that of the
    identity asked for. *)
Theorem small_cache_holds_last_identity cfg max keep_alive t ops
    user authn_method now :
  let s := run ops (kafka_client_cache cfg max keep_alive t) in
  let r := fetch_or_insert user authn_method now s in
  (max ≤ 1)%nat →
  _cache r.2 = [TimestampedUser (name user) r.1 now].
Proof.
  intros s r Hmax.
  assert (Hwf : wf s) by apply wf_reachable.
  destruct (wf_fetch_or_insert_front user authn_method now s Hwf) as [l Hl].
  fold r in Hl.
  destruct (wf_fetch_or_insert user authn_method now s Hwf)
    as (_ & _ & Hsize). fold r in Hsize.
  assert (Hm : _cache_max_size r.2 = max).
  { unfold r.
    destruct (fetch_or_insert_consts user authn_method now s) as (_ & -> & _).
    unfold s.
    by destruct (run_consts ops (kafka_client_cache cfg max keep_alive t))
      as (_ & -> & _). }
  rewrite Hl, Hm in Hsize. simpl in Hsize. rewrite Hl.
  destruct l; [done|]. simpl in Hsize. lia.
Qed.

(** In a well-formed state [fetch_or_insert] changes at most the password
    of the client it returns. *)
Lemma wf_fetch_or_insert_clients user authn_method now s c cl :
  wf s →
  let r := fetch_or_insert user authn_method now s in
  clients s !! c = Some cl →
  clients r.2 !! c =
    Some (if decide (c = r.1)
          then Client (set_scram_password (pass user) (config cl))
          else cl).
Proof.
  intros Hwf r Hc.
  pose proof (lookup_lt_Some _ _ _ Hc) as Hlt. unfold r.
  destruct (fetch_or_insert_cases user s Hwf)
    as [(i & item & cl' & Hfind & Hcl) | [[Hfind Hroom]
       | (Hfind & Hfull & l & item & Hl)]].
  - rewrite (fetch_or_insert_hit _ _ _ _ _ _ _ Hfind Hcl). proj_state.
    destruct (decide (c = tu_client item)) as [->|Hne].
    + assert (cl' = cl) as -> by congruence.
      case_bool_decide as Hpw.
      * by rewrite list_lookup_insert_eq.
      * rewrite Hc. f_equal. destruct cl as [cf]. simpl in *. f_equal.
        assert (scram_password cf = pass user) as <-.
        { by destruct (decide (scram_password cf = pass user)). }
        by rewrite set_scram_password_same.
    + destruct (bool_decide _); [|done].
      by rewrite list_lookup_insert_ne.
  - rewrite (fetch_or_insert_miss_room _ _ _ _ Hfind Hroom). proj_state.
    rewrite decide_False by lia. by rewrite lookup_app_l.
  - rewrite (fetch_or_insert_miss_evict _ _ _ _ _ _ Hfind Hfull Hl).
    proj_state. rewrite decide_False by lia. by rewrite lookup_app_l.
Qed.

(** In a well-formed state a miss makes the client at the end of the store,
    configured by [client_configuration]. *)
Lemma wf_fetch_or_insert_new_client user authn_method now s :
  wf s →
  let r := fetch_or_insert user authn_method now s in
  hash_find (name user) (_cache s) = None →
  r.1 = length (clients s) ∧
  clients r.2 !! r.1 =
    Some (Client (client_configuration (_config s) user authn_method)).
Proof.
  intros Hwf r Hmiss. unfold r.
  destruct (fetch_or_insert_cases user s Hwf)
    as [(i & item & cl' & Hfind & Hcl) | [[Hfind Hroom]
       | (Hfind & Hfull & l & item & Hl)]]; [congruence| |].
  - rewrite (fetch_or_insert_miss_room _ _ _ _ Hfind Hroom). proj_state.
    by rewrite lookup_app_r, Nat.sub_diag.
  - rewrite (fetch_or_insert_miss_evict _ _ _ _ _ _ Hfind Hfull Hl).
    proj_state. by rewrite lookup_app_r, Nat.sub_diag.
Qed.

(** X21: after any sequence of calls, [fetch_or_insert] leaves every client
    of the store as it was, except that the client it returns, when the
    identity was found, has the secret supplied as its password, with its
    mechanism and user name as they were. *)
Theorem fetch_or_insert_client_frame cfg max keep_alive t ops
    user authn_method now c cl :
  let s := run ops (kafka_client_cache cfg max keep_alive t) in
  let r := fetch_or_insert user authn_method now s in
  clients s !! c = Some cl →
  ∃ cl', clients r.2 !! c = Some cl' ∧
    (if decide (c = r.1)
     then scram_password (config cl') = pass user
          ∧ sasl_mechanism (config cl') = sasl_mechanism (config cl)
          ∧ scram_username (config cl') = scram_username (config cl)
     else cl' = cl).
Proof.
  intros s r Hc.
  pose proof (wf_fetch_or_insert_clients user authn_method now s c cl
                (wf_reachable cfg max keep_alive t ops) Hc) as H.
  simpl in H. fold r in H. rewrite H.
  eexists. split; [done|]. by destruct (decide (c = r.1)).
Qed.

(** X22: after any sequence of calls, when the identity is not in the
    index the client that [fetch_or_insert] makes is configured from the
    template of the constructor: under HTTP Basic with the mechanism
    SCRAM-SHA-256 and the identity and secret supplied, and with the
    template as it is under any other method. *)
Theorem new_client_configuration cfg max keep_alive t ops
    user authn_method now :
  let s := run ops (kafka_client_cache cfg max keep_alive t) in
  let r := fetch_or_insert user authn_method now s in
  name user ∉ key <$> _cache s →
  config <$> clients r.2 !! r.1 =
    Some (match authn_method with
          | http_basic => Configuration "SCRAM-SHA-256" (name user) (pass user)
          | none => cfg
          end).
Proof.
  intros s r Hmiss%hash_find_None.
  assert (Hwf : wf s) by apply wf_reachable.
  assert (Hcfg : _config s = cfg).
  { unfold s.
    by destruct (run_consts ops (kafka_client_cache cfg max keep_alive t))
      as (-> & _). }
  destruct (wf_fetch_or_insert_new_client user authn_method now s Hwf Hmiss)
    as [_ Hnew].
  fold r in Hnew. rewrite Hnew, Hcfg. simpl. by destruct authn_method.
Qed.

(** *** Credentials *)

(** Where the entries after a call come from: an entry of the index or of
    [_evicted_items] was in one of the two before, with its identity and
    its handle, or it is the entry of the client just made. *)
Lemma call_entries o s item :
  wf s →
  item ∈ _cache (call o s).2 ++ _evicted_items (call o s).2 →
  (∃ item0, item0 ∈ _cache s ++ _evicted_items s
            ∧ key item0 = key item ∧ tu_client item0 = tu_client item)
  ∨ (∃ user authn_method now,
        o = Fetch_or_insert user authn_method now
        ∧ hash_find (name user) (_cache s) = None
        ∧ key item = name user ∧ tu_client item = length (clients s)).
Proof.
  intros Hwf. destruct o as [user authn_method now|now|]; simpl.
  - destruct (fetch_or_insert_cases user s Hwf)
      as [(i & hit & cl & Hfind & Hcl) | [[Hfind Hroom]
         | (Hfind & Hfull & l & back & Hl)]].
    + rewrite (fetch_or_insert_hit _ _ _ _ _ _ _ Hfind Hcl). proj_state.
      apply hash_find_Some in Hfind as [Hi Hkey].
      pose proof (delete_Permutation _ _ _ Hi) as Hdel.
      rewrite elem_of_app, elem_of_cons.
      intros [[-> | Hin] | Hin]; left.
      * exists hit. split; [|done]. apply elem_of_app. left.
        by eapply list_elem_of_lookup_2.
      * exists item. split; [|done]. apply elem_of_app. left.
        rewrite Hdel. by right.
      * exists item. split; [|done]. apply elem_of_app. by right.
    + rewrite (fetch_or_insert_miss_room _ _ _ _ Hfind Hroom). proj_state.
      rewrite elem_of_app, elem_of_cons.
      intros [[-> | Hin] | Hin].
      * right. by exists user, authn_method, now.
      * left. exists item. rewrite elem_of_app. auto.
      * left. exists item. rewrite elem_of_app. auto.
    + rewrite (fetch_or_insert_miss_evict _ _ _ _ _ _ Hfind Hfull Hl).
      proj_state. rewrite !elem_of_app, elem_of_cons.
      intros [[-> | Hin] | [Hin | Hin]].
      * right. by exists user, authn_method, now.
      * left. exists item. rewrite Hl, !elem_of_app. auto.
      * left. exists item. rewrite !elem_of_app. auto.
      * left. exists item. rewrite Hl, !elem_of_app. auto.
  - rewrite clean_stale_clients_spec. proj_state. rewrite app_nil_r.
    intros [_ Hin]%list_elem_of_filter. left. exists item.
    rewrite elem_of_app. auto.
  - rewrite stop_spec. proj_state. by intros ?%elem_of_nil.
Qed.

Lemma call_clients_sweep_stop o s :
  ¬ (∃ user authn_method now, o = Fetch_or_insert user authn_method now) →
  clients (call o s).2 = clients s.
Proof.
  destruct o as [user authn_method now|now|]; simpl.
  - intros []. eauto.
  - by rewrite clean_stale_clients_spec.
  - by rewrite stop_spec.
Qed.

Lemma authenticates_as_identity_call o s :
  wf s → uses_http_basic o →
  authenticates_as_identity s → authenticates_as_identity (call o s).2.
Proof.
  intros Hwf Hbasic Hs item Hin.
  destruct (call_entries o s item Hwf Hin)
    as [(item0 & Hin0 & Hk & Hh)
       | (user & authn_method & now & -> & Hmiss & Hk & Hh)].
  - destruct (Hs item0 Hin0) as (cl & Hcl & Hm & Hu).
    rewrite <- Hk, <- Hh.
    destruct o as [user authn_method now|now|].
    + simpl.
      pose proof (wf_fetch_or_insert_clients user authn_method now s _ _
                    Hwf Hcl) as Hframe.
      simpl in Hframe.
      destruct (fetch_or_insert user authn_method now s) as [c s'].
      simpl in *. rewrite Hframe.
      eexists. split; [done|]. by destruct (decide _).
    + rewrite call_clients_sweep_stop; [eauto|]. by intros (? & ? & ? & ?).
    + rewrite call_clients_sweep_stop; [eauto|]. by intros (? & ? & ? & ?).
  - simpl in Hbasic. subst authn_method.
    destruct (wf_fetch_or_insert_new_client user http_basic now s Hwf Hmiss)
      as [Hr Hnew].
    simpl. destruct (fetch_or_insert user http_basic now s) as [c s'].
    simpl in *. rewrite Hh, <- Hr, Hnew, Hk.
    eexists. split; [done|]. done.
Qed.

(** X23: in a sequence of calls that all come under HTTP Basic, the client
    of every entry, in the index or in [_evicted_items], is configured with
    the mechanism SCRAM-SHA-256 and with the identity of its entry as user
    name. *)
Theorem clients_authenticate_as_identity cfg max keep_alive t ops item :
  let s := run ops (kafka_client_cache cfg max keep_alive t) in
  Forall uses_http_basic ops →
  item ∈ _cache s ++ _evicted_items s →
  ∃ cl, clients s !! tu_client item = Some cl
        ∧ sasl_mechanism (config cl) = "SCRAM-SHA-256"
        ∧ scram_username (config cl) = key item.
Proof.
  intros s Hops. revert item. fold (authenticates_as_identity s). unfold s.
  assert (H0 : authenticates_as_identity
                 (kafka_client_cache cfg max keep_alive t)).
  { by intros item ?%elem_of_nil. }
  pose proof (wf_init cfg max keep_alive t) as Hwf.
  revert H0 Hwf. generalize (kafka_client_cache cfg max keep_alive t).
  induction Hops as [|o ops Ho Hops IH]; intros s0 H0 Hwf; simpl; [done|].
  apply IH; [by apply authenticates_as_identity_call | by apply wf_call].
Qed.

Lemma holds_secret_fetch_or_insert user now s :
  wf s →
  holds_secret (name user) (pass user)
    (fetch_or_insert user http_basic now s).2.
Proof.
  intros Hwf item Hin Hkey.
  set (r := fetch_or_insert user http_basic now s) in *.
  assert (Hwf1 : wf r.2) by by apply wf_fetch_or_insert.
  destruct (wf_fetch_or_insert_front user http_basic now s Hwf) as [l Hl].
  fold r in Hl.
  assert (item = TimestampedUser (name user) r.1 now) as ->.
  { destruct Hwf1 as (Hkeys & _).
    apply (NoDup_fmap_elem_eq key (_cache r.2)); try done.
    rewrite Hl. left. }
  simpl.
  destruct (hash_find (name user) (_cache s)) as [[i hit]|] eqn:Hfind.
  - destruct (wf_hit_client s _ _ _ Hwf Hfind) as [cl Hcl].
    pose proof (wf_fetch_or_insert_clients user http_basic now s _ _
                  Hwf Hcl) as Hframe.
    simpl in Hframe. fold r in Hframe.
    assert (Hr : r.1 = tu_client hit).
    { unfold r. by rewrite (fetch_or_insert_hit _ _ _ _ _ _ _ Hfind Hcl). }
    rewrite Hr, Hframe. rewrite decide_True by done.
    eexists. split; [done|]. by destruct (config cl).
  - destruct (wf_fetch_or_insert_new_client user http_basic now s Hwf Hfind)
      as [_ Hnew].
    fold r in Hnew. rewrite Hnew. eexists. split; [done|]. done.
Qed.

Lemma holds_secret_call k p o s :
  wf s → ¬ asks_for k o →
  holds_secret k p s → holds_secret k p (call o s).2.
Proof.
  intros Hwf Hother Hs item Hin Hkey.
  assert (Hwf1 : wf (call o s).2) by by apply wf_call.
  destruct (call_cache_returned o s item Hwf Hin)
    as [(item0 & Hin0 & Hk & Hh) | Hret].
  - destruct (Hs item0 Hin0) as (cl & Hcl & Hp); [congruence|].
    rewrite <- Hh.
    destruct o as [user authn_method now|now|].
    + simpl in *.
      pose proof (wf_fetch_or_insert_clients user authn_method now s _ _
                    Hwf Hcl) as Hframe.
      pose proof (wf_fetch_or_insert_front user authn_method now s Hwf)
        as [l Hl].
      simpl in Hframe, Hl.
      destruct (fetch_or_insert user authn_method now s) as [c s'].
      simpl in *. rewrite Hframe. rewrite decide_False; [eauto|].
      intros Hc. apply Hother.
      assert (TimestampedUser (name user) c now = item) as <-; [|done].
      pose proof (wf_NoDup s' Hwf1) as Hnd.
      apply NoDup_app in Hnd as (Hnd & _).
      apply (NoDup_fmap_elem_eq tu_client (_cache s')); try done.
      * rewrite Hl. left.
      * simpl. congruence.
    + rewrite call_clients_sweep_stop; [eauto|]. by intros (? & ? & ? & ?).
    + rewrite call_clients_sweep_stop; [eauto|]. by intros (? & ? & ? & ?).
  - destruct o as [user authn_method now|now|]; simpl in *.
    + destruct (fetch_or_insert user authn_method now s) as [c s'].
      simpl in *. apply list_elem_of_singleton in Hret.
      destruct Hother. congruence.
    + by apply elem_of_nil in Hret.
    + by apply elem_of_nil in Hret.
Qed.

Lemma run_app ops1 ops2 s : run (ops1 ++ ops2) s = run ops2 (run ops1 s).
Proof.
  revert s; induction ops1 as [|o ops1 IH]; intros s; simpl; [done|].
  apply IH.
Qed.

(** X24: the cache keeps the latest secret.  If the last [fetch_or_insert]
    for an identity in a sequence of calls came under HTTP Basic, then
    after the sequence the client of the identity's index entry, if
    there is one, has the secret of that call as its password. *)
Theorem latest_secret_is_configured cfg max keep_alive t ops1 ops2
    user now item :
  let s :=
    run (ops1 ++ Fetch_or_insert user http_basic now :: ops2)
      (kafka_client_cache cfg max keep_alive t) in
  Forall (λ o, ¬ asks_for (name user) o) ops2 →
  item ∈ _cache s →
  key item = name user →
  ∃ cl, clients s !! tu_client item = Some cl
        ∧ scram_password (config cl) = pass user.
Proof.
  intros s Hops2. revert item.
  fold (holds_secret (name user) (pass user) s). unfold s.
  rewrite run_app.
  change (run (?o :: ?ops) ?s0) with (run ops (call o s0).2).
  set (s1 := run ops1 (kafka_client_cache cfg max keep_alive t)).
  assert (Hwf1 : wf s1) by apply wf_reachable.
  pose proof (holds_secret_fetch_or_insert user now s1 Hwf1) as H2.
  pose proof (wf_fetch_or_insert user http_basic now s1 Hwf1) as Hwf2.
  assert (Heq : (call (Fetch_or_insert user http_basic now) s1).2
                = (fetch_or_insert user http_basic now s1).2).
  { simpl. by destruct (fetch_or_insert user http_basic now s1). }
  rewrite Heq. revert H2 Hwf2.
  generalize ((fetch_or_insert user http_basic now s1).2).
  induction Hops2 as [|o ops Ho Hops IH]; intros s0 H0 Hwf; simpl; [done|].
  apply IH; [by apply holds_secret_call | by apply wf_call].
Qed.

(** *** Coroutines in flight *)

(** The invariant of [iwf] with the pending clients as a parameter. *)
Lemma iwf_alt s fs :
  iwf (s, fs) ↔
  NoDup (key <$> _cache s) ∧
  handles (_cache s) ++ handles (_evicted_items s) ++ pending fs
    ++ stopped (events s) ≡ₚ seq 0 (length (clients s)).
Proof. done. Qed.

Lemma pending_app fs1 fs2 : pending (fs1 ++ fs2) = pending fs1 ++ pending fs2.
Proof. unfold pending. by rewrite fmap_app, concat_app. Qed.

Lemma pending_lookup fs i f :
  fs !! i = Some f →
  pending fs ≡ₚ handles (remaining f) ++ pending (delete i fs).
Proof.
  intros Hi. rewrite <- (take_drop_middle fs i f Hi) at 1.
  rewrite delete_take_drop, !pending_app.
  change (pending (f :: drop (S i) fs))
    with (handles (remaining f) ++ pending (drop (S i) fs)).
  rewrite !(assoc (++)). apply Permutation_app_tail, (comm (++)).
Qed.

Lemma pending_insert fs i f f' :
  fs !! i = Some f →
  pending (<[i := f']> fs) ≡ₚ handles (remaining f') ++ pending (delete i fs).
Proof.
  intros Hi. rewrite insert_take_drop by by eapply lookup_lt_Some.
  rewrite delete_take_drop, !pending_app.
  change (pending (f' :: drop (S i) fs))
    with (handles (remaining f') ++ pending (drop (S i) fs)).
  rewrite !(assoc (++)). apply Permutation_app_tail, (comm (++)).
Qed.

(** [fetch_or_insert] with the rest of the clients, [X], left alone. *)
Lemma fetch_or_insert_perm user authn_method now s X :
  NoDup (key <$> _cache s) →
  handles (_cache s) ++ handles (_evicted_items s) ++ X
    ≡ₚ seq 0 (length (clients s)) →
  let r := fetch_or_insert user authn_method now s in
  NoDup (key <$> _cache r.2) ∧
  handles (_cache r.2) ++ handles (_evicted_items r.2) ++ X
    ≡ₚ seq 0 (length (clients r.2)) ∧
  stopped (events r.2) = stopped (events s) ∧
  r.1 ∈ handles (_cache r.2).
Proof.
  intros Hkeys Hperm r. unfold r.
  destruct (hash_find (name user) (_cache s)) as [[i item]|] eqn:Hfind.
  - pose proof Hfind as [Hi Hkey]%hash_find_Some.
    assert (Hin : tu_client item ∈ seq 0 (length (clients s))).
    { rewrite <- Hperm. apply elem_of_app. left.
      apply list_elem_of_fmap_2. by eapply list_elem_of_lookup_2. }
    apply elem_of_seq in Hin.
    destruct (lookup_lt_is_Some_2 (clients s) (tu_client item)) as [cl Hcl];
      [lia|].
    rewrite (fetch_or_insert_hit _ _ _ _ _ _ _ Hfind Hcl). proj_state.
    pose proof (delete_Permutation _ _ _ Hi) as Hdel.
    split_and!.
    + change (NoDup (key <$> item :: delete i (_cache s))).
      by rewrite <- Hdel.
    + change (handles (item :: delete i (_cache s)) ++
              handles (_evicted_items s) ++ X
              ≡ₚ seq 0 (length (if bool_decide
                   (scram_password (config cl) ≠ pass user)
                 then <[tu_client item :=
                   Client (set_scram_password (pass user) (config cl))]>
                   (clients s) else clients s))).
      unfold handles. rewrite <- Hdel.
      by destruct (bool_decide _); rewrite ?length_insert.
    + rewrite stopped_app. simpl. by rewrite app_nil_r.
    + simpl. left.
  - pose proof Hfind as Hk%hash_find_None.
    destruct (decide (length (_cache s) < _cache_max_size s
                      ∨ _cache s = [])%nat) as [Hroom|Hfull].
    + rewrite (fetch_or_insert_miss_room _ _ _ _ Hfind Hroom). proj_state.
      split_and!.
      * rewrite fmap_cons. by apply NoDup_cons.
      * rewrite length_app, Nat.add_1_r, seq_S. simpl.
        rewrite <- Hperm. by rewrite Permutation_cons_append.
      * rewrite stopped_app. simpl. by rewrite app_nil_r.
      * simpl. left.
    + destruct (last (_cache s)) as [back|] eqn:Hlast.
      2:{ apply last_None in Hlast. tauto. }
      apply last_Some_snoc in Hlast as [l Hl].
      assert (Hge : (_cache_max_size s ≤ length (_cache s))%nat) by lia.
      rewrite (fetch_or_insert_miss_evict _ _ _ _ _ _ Hfind Hge Hl).
      rewrite Hl in *. proj_state. split_and!.
      * rewrite fmap_cons. apply NoDup_cons.
        rewrite fmap_app in Hk, Hkeys. split.
        -- intros Hin. apply Hk, elem_of_app. by left.
        -- by apply NoDup_app in Hkeys as (? & _).
      * rewrite length_app, Nat.add_1_r, seq_S. simpl. rewrite <- Hperm.
        unfold handles. rewrite !fmap_app. simpl.
        rewrite Permutation_cons_append.
        rewrite <- !(assoc (++)). apply Permutation_app_head.
        rewrite !(assoc (++)). do 2 apply Permutation_app_tail.
        apply (comm (++)).
      * rewrite !stopped_app. simpl.
        destruct (should_rearm _ _); simpl; by rewrite app_nil_r.
      * simpl. left.
Qed.

Lemma accounted_Permutation X Y s : X ≡ₚ Y → accounted X s → accounted Y s.
Proof. intros HXY [Hk Hp]. split; [done|]. by rewrite <- HXY. Qed.

Lemma start_loop_spec b remove s :
  start_loop b remove s =
    match remove with
    | [] => (None, s)
    | item :: remove' =>
        (Some (Awaiting b item remove'), emit (EvStop (tu_client item)) s)
    end.
Proof. by destruct remove. Qed.

Lemma start_loop_accounted b remove X s :
  accounted (X ++ handles remove) s →
  accounted (X ++ pending (option_list (start_loop b remove s).1))
    (start_loop b remove s).2.
Proof.
  rewrite start_loop_spec. destruct remove as [|item remove']; [done|].
  intros [Hk Hp]. split; [done|]. proj_state.
  rewrite stopped_app. unfold pending. simpl. rewrite app_nil_r.
  rewrite <- Hp. simpl.
  do 2 apply Permutation_app_head.
  rewrite <- !(assoc (++)). apply Permutation_app_head.
  rewrite (assoc (++)), <- Permutation_cons_append. done.
Qed.

Lemma enter_evicted_spec s :
  enter_evicted s =
    start_loop true (_evicted_items s) (set_evicted_items [] s).
Proof.
  unfold enter_evicted. unfold_st. rewrite erase_loop_filter.
  by destruct (filter_always (_evicted_items s)) as [-> ->].
Qed.

Lemma enter_evicted_accounted X s :
  accounted X s →
  accounted (X ++ pending (option_list (enter_evicted s).1))
    (enter_evicted s).2.
Proof.
  intros [Hk Hp]. rewrite enter_evicted_spec.
  apply start_loop_accounted. split; [done|]. proj_state.
  rewrite <- Hp. simpl. apply Permutation_app_head.
  rewrite !(assoc (++)). apply Permutation_app_tail, (comm (++)).
Qed.

Lemma enter_index_spec pred s :
  enter_index pred s =
    match filter (λ x, pred x) (_cache s) with
    | [] => enter_evicted (set_cache (filter (λ x, ¬ pred x) (_cache s)) s)
    | item :: remove' =>
        (Some (Awaiting false item remove'),
         emit (EvStop (tu_client item))
           (set_cache (filter (λ x, ¬ pred x) (_cache s)) s))
    end.
Proof.
  unfold enter_index. unfold_st. rewrite erase_loop_filter.
  by destruct (filter (λ x, pred x) (_cache s)).
Qed.

Lemma enter_index_accounted pred X s :
  accounted X s →
  accounted (X ++ pending (option_list (enter_index pred s).1))
    (enter_index pred s).2.
Proof.
  intros [Hk Hp].
  set (s1 := set_cache (filter (λ x, ¬ pred x) (_cache s)) s).
  assert (H1 : accounted (X ++ handles (filter (λ x, pred x) (_cache s))) s1).
  { split; unfold s1; proj_state.
    - eapply sublist_NoDup; [exact Hk|]. apply fmap_sublist, sublist_filter.
    - assert (Hsplit : handles (_cache s) ≡ₚ
                handles (filter (λ x, ¬ pred x) (_cache s)) ++
                handles (filter (λ x, pred x) (_cache s))).
      { unfold handles. rewrite <- fmap_app, (comm (++)).
        by rewrite filter_app_complement. }
      rewrite <- Hp, Hsplit, <- !(assoc (++)).
      apply Permutation_app_head.
      rewrite !(assoc (++) (handles (_evicted_items s)) X).
      apply Permutation_app_swap_app. }
  rewrite enter_index_spec. fold s1.
  destruct (filter (λ x, pred x) (_cache s)) as [|item remove'] eqn:Hrm.
  - apply enter_evicted_accounted. simpl in H1. by rewrite app_nil_r in H1.
  - pose proof (start_loop_accounted false (item :: remove') X s1 H1) as H2.
    by rewrite start_loop_spec in H2.
Qed.

Lemma end_stop_spec item s :
  end_stop item s =
    (tt,
     State (_config s) (_cache_max_size s) (_keep_alive s)
       (_clean_and_evict_timer s) (_cache s) (_evicted_items s) (clients s)
       (events s ++
        match stop_outcome (tu_client item) with
        | Some ex =>
            [EvLog (Stale_client_stop_already_happened (key item) ex)]
        | None => []
        end)).
Proof.
  unfold end_stop. destruct (stop_outcome _); unfold_st; simpl.
  - done.
  - rewrite app_nil_r. by destruct s.
Qed.

Lemma end_stop_accounted item X s :
  accounted X s → accounted X (end_stop item s).2.
Proof.
  intros [Hk Hp]. rewrite end_stop_spec. split; proj_state; [done|].
  rewrite stopped_app.
  assert (Hlog : stopped
            match stop_outcome (tu_client item) with
            | Some ex =>
                [EvLog (Stale_client_stop_already_happened (key item) ex)]
            | None => []
            end = []) by by destruct (stop_outcome _).
  by rewrite Hlog, app_nil_r.
Qed.

Lemma resume_spec f s :
  resume f s =
    let s1 := (end_stop (awaited f) s).2 in
    match remaining f with
    | [] => if second f then (None, s1) else enter_evicted s1
    | item :: remove' =>
        (Some (Awaiting (second f) item remove'),
         emit (EvStop (tu_client item)) s1)
    end.
Proof.
  unfold resume. unfold_st. rewrite end_stop_spec. simpl.
  destruct (remaining f); simpl; [|done]. by destruct (second f).
Qed.

Lemma resume_accounted f X s :
  accounted (X ++ handles (remaining f)) s →
  accounted (X ++ pending (option_list (resume f s).1)) (resume f s).2.
Proof.
  intros H%(end_stop_accounted (awaited f)). rewrite resume_spec. simpl.
  set (s1 := (end_stop (awaited f) s).2) in *.
  destruct (remaining f) as [|item remove'] eqn:Hrem.
  - simpl in H. rewrite app_nil_r in H. destruct (second f).
    + simpl. unfold pending. simpl. by rewrite app_nil_r.
    + by apply enter_evicted_accounted.
  - pose proof (start_loop_accounted (second f) (item :: remove') X s1 H)
      as H2.
    by rewrite start_loop_spec in H2.
Qed.

Lemma iwf_init cfg max keep_alive t :
  iwf (kafka_client_cache cfg max keep_alive t, []).
Proof. split; simpl; [constructor | done]. Qed.

Lemma iwf_istep a c : iwf c → iwf (istep a c).
Proof.
  destruct c as [s fs]. intros Hc.
  change (accounted (pending fs) s) in Hc.
  destruct a as [[user authn_method now|now|]|i]; simpl.
  - destruct Hc as [Hk Hp].
    destruct (fetch_or_insert_perm user authn_method now s
                (pending fs ++ stopped (events s)) Hk Hp)
      as (Hk' & Hp' & Hst & _).
    split; simpl; [done|]. by rewrite Hst.
  - pose proof (enter_index_accounted (is_expired (_keep_alive s) now)
                  _ _ Hc) as H.
    destruct (enter_index _ s) as [fr s']. simpl in H.
    change (accounted (pending (fs ++ option_list fr)) s').
    by rewrite pending_app.
  - pose proof (enter_index_accounted always _ _ Hc) as H.
    destruct (enter_index _ s) as [fr s']. simpl in H.
    change (accounted (pending (fs ++ option_list fr)) s').
    by rewrite pending_app.
  - destruct (fs !! i) as [f|] eqn:Hi; [|done].
    assert (H : accounted (pending (delete i fs) ++ handles (remaining f)) s).
    { eapply accounted_Permutation; [|exact Hc].
      rewrite (pending_lookup fs i f Hi). apply (comm (++)). }
    apply resume_accounted in H.
    destruct (resume f s) as [[f'|] s']; simpl in *.
    + change (accounted (pending (<[i := f']> fs)) s').
      eapply accounted_Permutation; [|exact H].
      rewrite (pending_insert fs i f f' Hi). unfold pending at 2. simpl.
      rewrite app_nil_r. apply (comm (++)).
    + change (accounted (pending (delete i fs)) s').
      unfold pending at 2 in H. simpl in H. by rewrite app_nil_r in H.
Qed.

Lemma iwf_irun acts c : iwf c → iwf (irun acts c).
Proof.
  revert c; induction acts as [|a acts IH]; intros c Hc; simpl; [done|].
  by apply IH, iwf_istep.
Qed.

Lemma accounted_stop_count X s c :
  accounted X s → (c < length (clients s))%nat →
  stop_count c s =
    if decide (c ∈ handles (_cache s) ++ handles (_evicted_items s) ++ X)
    then 0%nat else 1%nat.
Proof.
  intros [_ Hperm] Hc.
  assert (Hnd : NoDup ((handles (_cache s) ++ handles (_evicted_items s) ++ X)
                       ++ stopped (events s))).
  { rewrite <- !(assoc (++)), Hperm. apply NoDup_seq. }
  assert (Hin : c ∈ (handles (_cache s) ++ handles (_evicted_items s) ++ X)
                      ++ stopped (events s)).
  { rewrite <- !(assoc (++)), Hperm. apply elem_of_seq. lia. }
  apply NoDup_app in Hnd as (_ & Hdisj & Hst).
  unfold stop_count. rewrite (count_NoDup _ _ Hst).
  apply elem_of_app in Hin as [Hin|Hin].
  - rewrite (decide_False (P := c ∈ stopped (events s))) by by apply Hdisj.
    by rewrite decide_True.
  - rewrite (decide_True (P := c ∈ stopped (events s))) by done.
    rewrite decide_False; [done|]. intros Hin'. by apply (Hdisj c).
Qed.

(** X25: teardown happens once also when calls interleave.  However
    callers' calls and resumptions of suspended sweeps and shutdowns are
    interleaved, a client made so far has had [stop] called on it exactly
    once if it is neither in the index, nor in [_evicted_items], nor
    waiting in the [remove] list of a suspended coroutine, and never
    otherwise. *)
Theorem interleaved_stop_exactly_once cfg max keep_alive t acts c :
  let sys := irun acts (kafka_client_cache cfg max keep_alive t, []) in
  (c < length (clients sys.1))%nat →
  stop_count c sys.1 =
    if decide (c ∈ handles (_cache sys.1) ++ handles (_evicted_items sys.1)
                   ++ pending sys.2)
    then 0%nat else 1%nat.
Proof.
  intros sys Hc. apply accounted_stop_count; [|done].
  apply (iwf_irun acts), iwf_init.
Qed.

(** X26: however calls and resumptions are interleaved, the handle that a
    [fetch_or_insert] returns belongs to a client on which [stop] has not
    been called, which no suspended coroutine is about to stop, and which
    does not wait in [_evicted_items]. *)
Theorem interleaved_fetch_returns_live_client cfg max keep_alive t acts
    user authn_method now :
  let sys := irun acts (kafka_client_cache cfg max keep_alive t, []) in
  let r := fetch_or_insert user authn_method now sys.1 in
  (r.1 ∉ stopped (events r.2)) ∧
  (r.1 ∉ pending sys.2) ∧
  (r.1 ∉ handles (_evicted_items r.2)).
Proof.
  intros sys r.
  destruct (iwf_irun acts _ (iwf_init cfg max keep_alive t)) as [Hk Hp].
  fold sys in Hk, Hp.
  destruct (fetch_or_insert_perm user authn_method now sys.1
              (pending sys.2 ++ stopped (events sys.1)) Hk Hp)
    as (_ & Hp' & Hst & Hin).
  fold r in Hp', Hst, Hin.
  assert (Hnd : NoDup (handles (_cache r.2) ++ handles (_evicted_items r.2)
                       ++ pending sys.2 ++ stopped (events sys.1))).
  { rewrite Hp'. apply NoDup_seq. }
  apply NoDup_app in Hnd as (_ & Hdisj & _).
  specialize (Hdisj r.1 Hin).
  rewrite !not_elem_of_app in Hdisj. destruct Hdisj as (He & Hpe & Hs).
  by rewrite Hst.
Qed.

(** *** Sweeps finish *)

Lemma irun_no_frames n s :
  irun (replicate n (Resume 0)) (s, []) = (s, []).
Proof. induction n as [|n IH]; simpl; [done|]. apply IH. Qed.

Lemma resume_first_work f fs s :
  let sys := istep (Resume 0) (s, f :: fs) in
  (2 * length sys.2 + length (pending sys.2) + length (_evicted_items sys.1)
   < 2 * length (f :: fs) + length (pending (f :: fs))
     + length (_evicted_items s))%nat.
Proof.
  simpl. rewrite resume_spec, end_stop_spec. simpl.
  change (pending (f :: fs)) with (handles (remaining f) ++ pending fs).
  rewrite length_app. unfold handles. rewrite length_fmap.
  destruct (remaining f) as [|item remove'] eqn:Hrem; simpl.
  - destruct (second f); simpl; [lia|].
    rewrite enter_evicted_spec, start_loop_spec. proj_state.
    destruct (_evicted_items s) as [|e es]; simpl; [lia|].
    change (pending (?a :: fs)) with (handles (remaining a) ++ pending fs).
    simpl. rewrite length_app. unfold handles. rewrite length_fmap. lia.
  - change (pending (?a :: fs)) with (handles (remaining a) ++ pending fs).
    simpl. rewrite length_app. unfold handles. rewrite length_fmap. lia.
Qed.

(** X27: suspended sweeps and shutdowns finish.  From any state of the
    cache and any suspended coroutines, resuming the first suspended
    coroutine again and again leaves none suspended after at most two
    steps for each coroutine plus one for each entry still to be
    stopped. *)
Theorem resumptions_finish n s fs :
  (2 * length fs + length (pending fs) + length (_evicted_items s) ≤ n)%nat →
  (irun (replicate n (Resume 0)) (s, fs)).2 = [].
Proof.
  revert s fs; induction n as [|n IH]; intros s fs Hn.
  - destruct fs; [done|]. simpl in Hn. lia.
  - destruct fs as [|f fs]; [by rewrite irun_no_frames|].
    change (irun (replicate (S n) (Resume 0)) (s, f :: fs))
      with (irun (replicate n (Resume 0)) (istep (Resume 0) (s, f :: fs))).
    pose proof (resume_first_work f fs s) as Hless. cbv zeta in Hless.
    destruct (istep (Resume 0) (s, f :: fs)) as [s' fs'].
    apply IH. simpl in Hless, Hn. simpl. lia.
Qed.

(** *** Uninterrupted coroutines *)

Lemma stop_events_tail item :
  [EvStop (tu_client item)] ++ tail (stop_events item) = stop_events item.
Proof. done. Qed.

Lemma end_stop_tail item s :
  end_stop item s =
    (tt,
     State (_config s) (_cache_max_size s) (_keep_alive s)
       (_clean_and_evict_timer s) (_cache s) (_evicted_items s) (clients s)
       (events s ++ tail (stop_events item))).
Proof. by rewrite end_stop_spec. Qed.

(** A coroutine suspended in the second loop, resumed until it ends. *)
Lemma drain_second n item rest s :
  (length rest < n)%nat →
  irun (replicate n (Resume 0)) (s, [Awaiting true item rest]) =
    (State (_config s) (_cache_max_size s) (_keep_alive s)
       (_clean_and_evict_timer s) (_cache s) (_evicted_items s) (clients s)
       (events s ++ tail (stop_events item) ++ concat (stop_events <$> rest)),
     []).
Proof.
  revert item s n. induction rest as [|item' rest IH]; intros item s n Hn;
    (destruct n as [|n]; [simpl in Hn; lia|]).
  - simpl. rewrite resume_spec, end_stop_tail. simpl.
    by rewrite irun_no_frames, app_nil_r.
  - change (irun (replicate (S n) (Resume 0)) ?c)
      with (irun (replicate n (Resume 0)) (istep (Resume 0) c)).
    simpl istep. rewrite resume_spec, end_stop_tail. simpl.
    rewrite IH by (simpl in Hn; lia). proj_state.
    do 2 f_equal. rewrite <- !(assoc (++)). reflexivity.
Qed.

(** A coroutine suspended in the first loop, resumed until it ends: it
    goes on to drain [_evicted_items]. *)
Lemma drain_first n item rest s :
  (length rest + length (_evicted_items s) + 1 < n)%nat →
  irun (replicate n (Resume 0)) (s, [Awaiting false item rest]) =
    (State (_config s) (_cache_max_size s) (_keep_alive s)
       (_clean_and_evict_timer s) (_cache s) [] (clients s)
       (events s ++ tail (stop_events item) ++ concat (stop_events <$> rest)
        ++ concat (stop_events <$> _evicted_items s)),
     []).
Proof.
  revert item s n. induction rest as [|item' rest IH]; intros item s n Hn;
    (destruct n as [|n]; [simpl in Hn; lia|]).
  - change (irun (replicate (S n) (Resume 0)) ?c)
      with (irun (replicate n (Resume 0)) (istep (Resume 0) c)).
    simpl istep. rewrite resume_spec, end_stop_tail. simpl.
    rewrite enter_evicted_spec, start_loop_spec. proj_state.
    destruct (_evicted_items s) as [|e es] eqn:Hev; simpl.
    + by rewrite irun_no_frames, !app_nil_r.
    + rewrite drain_second by (simpl in Hn; lia). proj_state.
      do 2 f_equal. rewrite <- !(assoc (++)). reflexivity.
  - change (irun (replicate (S n) (Resume 0)) ?c)
      with (irun (replicate n (Resume 0)) (istep (Resume 0) c)).
    simpl istep. rewrite resume_spec, end_stop_tail. simpl.
    rewrite IH by (simpl in *; lia). proj_state.
    do 2 f_equal. rewrite <- !(assoc (++)). reflexivity.
Qed.

Lemma enter_index_then_drain n pred s :
  (length (_cache s) + length (_evicted_items s) < n)%nat →
  irun (replicate n (Resume 0))
    ((enter_index pred s).2, option_list (enter_index pred s).1) =
    (State (_config s) (_cache_max_size s) (_keep_alive s)
       (_clean_and_evict_timer s)
       (filter (λ x, ¬ pred x) (_cache s)) [] (clients s)
       (events s ++
        concat (stop_events <$> filter (λ x, pred x) (_cache s)) ++
        concat (stop_events <$> _evicted_items s)),
     []).
Proof.
  intros Hn. rewrite enter_index_spec.
  pose proof (length_filter (λ x, pred x) (_cache s)) as Hlen.
  destruct (filter (λ x, pred x) (_cache s)) as [|item remove'] eqn:Hrm.
  - rewrite enter_evicted_spec, start_loop_spec. proj_state.
    destruct (_evicted_items s) as [|e es] eqn:Hev; simpl.
    + by rewrite irun_no_frames, !app_nil_r.
    + rewrite drain_second by (simpl in Hn; lia). proj_state.
      do 2 f_equal. rewrite <- !(assoc (++)). reflexivity.
  - simpl. rewrite drain_first by (simpl in *; lia). proj_state.
    do 2 f_equal. rewrite <- !(assoc (++)). reflexivity.
Qed.

(** C5 (as amended): when [stop()] is called with no coroutine suspended
    and nothing else runs until it returns, it returns, after more
    resumptions than there are entries, with the index and
    [_evicted_items] empty, so that [size()] is 0, and [stop] has been
    called on every entry of the index, in order, before every entry of
    [_evicted_items]. *)
Theorem stop_uninterrupted_drains n s :
  let sys := irun (Call Stop :: replicate n (Resume 0)) (s, []) in
  (size s + length (_evicted_items s) < n)%nat →
  sys.2 = [] ∧
  size sys.1 = 0%nat ∧
  _evicted_items sys.1 = [] ∧
  stopped (events sys.1) =
    stopped (events s) ++ handles (_cache s) ++ handles (_evicted_items s).
Proof.
  intros sys Hn. unfold sys, size in *.
  change (irun (Call Stop :: ?acts) ?c) with (irun acts (istep (Call Stop) c)).
  simpl istep.
  pose proof (enter_index_then_drain n always s Hn) as H.
  destruct (filter_always (_cache s)) as [E1 E2]. rewrite E1, E2 in H.
  destruct (enter_index _ s) as [fr s']. simpl in H. simpl.
  rewrite H. proj_state.
  by rewrite !stopped_app, !stopped_stop_events.
Qed.

(** X28: left alone, a coroutine does what the call does when run to
    completion.  From a state with no suspended coroutine, a call followed
    by resumptions until the coroutine has ended, more than there are
    entries in the index and in [_evicted_items], gives the state that the
    call run to completion gives, with no coroutine suspended. *)
Theorem uninterrupted_call_completes o n s :
  (size s + length (_evicted_items s) < n)%nat →
  irun (Call o :: replicate n (Resume 0)) (s, []) = ((call o s).2, []).
Proof.
  intros Hn. unfold size in Hn.
  change (irun (Call o :: ?acts) ?c) with (irun acts (istep (Call o) c)).
  destruct o as [user authn_method now|now|]; simpl istep.
  - rewrite irun_no_frames. simpl.
    by destruct (fetch_or_insert user authn_method now s).
  - pose proof (enter_index_then_drain n (is_expired (_keep_alive s) now) s Hn)
      as H.
    destruct (enter_index _ s) as [fr s']. simpl in H. simpl.
    by rewrite H, clean_stale_clients_spec.
  - pose proof (enter_index_then_drain n always s Hn) as H.
    destruct (filter_always (_cache s)) as [E1 E2]. rewrite E1, E2 in H.
    destruct (enter_index _ s) as [fr s']. simpl in H. simpl.
    by rewrite H, stop_spec.
Qed.

End Cache.

(** ** The theorems at sample inputs *)

(** With [max_size = 0] the first insertion leaves one entry in the index:
    the bound [size <= max_size] of C1 fails there. *)
Lemma size_exceeds_zero_maximum :
  let s :=
    (fetch_or_insert alice http_basic 0
       (kafka_client_cache plain_config 0 100 (Timer false 0))).2 in
  size s = 1%nat ∧ max_size s = 0%nat ∧ ¬ (size s ≤ max_size s)%nat.
Proof. vm_compute. split_and!; [done | done | lia]. Qed.

Lemma fetch_or_insert_present_witness :
  let s0 := kafka_client_cache plain_config 2 100 (Timer false 0) in
  let ops := [Fetch_or_insert alice http_basic 10] in
  let s := run first_stop_fails ops s0 in
  let r := fetch_or_insert (Credential "alice" "looking-glass") http_basic 20 s in
  name alice ∈ key <$> _cache s ∧
  ("alice", r.1) ∈ returned first_stop_fails ops s0 ∧
  length (clients r.2) = length (clients s) ∧
  ∃ cl', clients r.2 !! r.1 = Some cl'
         ∧ scram_password (config cl') = "looking-glass".
Proof.
  intros s0 ops s r.
  assert (H : name alice ∈ key <$> _cache s) by (vm_compute; left).
  split; [exact H|].
  destruct (fetch_or_insert_present first_stop_fails plain_config 2 100
              (Timer false 0) ops (Credential "alice" "looking-glass")
              http_basic 20 H)
    as (item & cl & cl' & _ & _ & _ & _ & Hret & Hlen & _ & Hcl' & Hpw & _).
  exact (conj Hret (conj Hlen (ex_intro _ cl' (conj Hcl' Hpw)))).
Defined.

Lemma clean_stale_clients_expiry_witness :
  let s :=
    run first_stop_fails
      [Fetch_or_insert alice http_basic 0; Fetch_or_insert bob http_basic 50]
      (kafka_client_cache plain_config 2 100 (Timer false 0)) in
  let s' := (clean_stale_clients first_stop_fails 120 s).2 in
  (_cache s !! 1%nat = Some (TimestampedUser "alice" 0%nat 0)
   ∧ expiry_representable 100 0) ∧
  (TimestampedUser "alice" 0%nat 0 ∉ _cache s') ∧
  stop_count 0%nat s' = 1%nat.
Proof.
  intros s s'.
  assert (H : _cache s !! 1%nat = Some (TimestampedUser "alice" 0%nat 0))
    by reflexivity.
  assert (Hrep : expiry_representable 100 0) by (vm_compute; intuition congruence).
  split; [exact (conj H Hrep)|].
  destruct (clean_stale_clients_expiry first_stop_fails plain_config 2 100
              (Timer false 0) _ 120 1%nat _ H Hrep) as (_ & _ & Hif).
  rewrite decide_True in Hif by (simpl; lia). exact Hif.
Defined.

Lemma client_stopped_exactly_once_witness :
  let s :=
    run first_stop_fails
      [Fetch_or_insert alice http_basic 0; Fetch_or_insert bob http_basic 1;
       Fetch_or_insert carol http_basic 2]
      (kafka_client_cache plain_config 2 100 (Timer false 0)) in
  (0 < length (clients s))%nat ∧
  stop_count 0%nat s = 0%nat ∧
  stop_count 0%nat (stop first_stop_fails s).2 = 1%nat.
Proof.
  intros s.
  assert (H : (0 < length (clients s))%nat) by (vm_compute; lia).
  split; [exact H|].
  destruct (client_stopped_exactly_once first_stop_fails plain_config 2 100
              (Timer false 0) _ 0 0%nat H) as (Hnow & _ & Hstop).
  split; [|exact Hstop]. etransitivity; [exact Hnow|]. by vm_compute.
Defined.

Lemma eviction_rearms_timer_witness :
  let s :=
    run first_stop_fails [Fetch_or_insert alice http_basic 0]
      (kafka_client_cache plain_config 1 100 (Timer false 0)) in
  let s' := (fetch_or_insert bob http_basic 5 s).2 in
  ((name bob ∉ key <$> _cache s) ∧ (max_size s ≤ size s)%nat
   ∧ _cache s ≠ []) ∧
  _clean_and_evict_timer s' = Timer true 1005 ∧
  rearmed (events s') = [1005].
Proof.
  intros s s'.
  assert (H1 : name bob ∉ key <$> _cache s).
  { apply (bool_decide_unpack _). by vm_compute. }
  assert (H2 : (max_size s ≤ size s)%nat) by (vm_compute; lia).
  assert (H3 : _cache s ≠ []) by (vm_compute; discriminate).
  split; [exact (conj H1 (conj H2 H3))|].
  destruct (eviction_rearms_timer bob http_basic 5 s H1 H2 H3) as (_ & Hif).
  rewrite decide_True in Hif by (left; reflexivity). exact Hif.
Defined.

Lemma evicted_identity_gets_new_client_witness :
  let s :=
    run first_stop_fails
      [Fetch_or_insert alice http_basic 0; Fetch_or_insert bob http_basic 1]
      (kafka_client_cache plain_config 1 100 (Timer false 0)) in
  let old := TimestampedUser "alice" 0%nat 0 in
  let r := fetch_or_insert alice http_basic 2 s in
  let drained :=
    (remove_client_if first_stop_fails _evicted_items set_evicted_items
       always r.2).2 in
  (old ∈ _evicted_items s ∧ key old = name alice
   ∧ (name alice ∉ key <$> _cache s)) ∧
  r.1 ≠ tu_client old ∧
  _cache drained = _cache r.2 ∧
  stop_count (tu_client old) drained = 1%nat ∧
  stop_count r.1 drained = 0%nat.
Proof.
  intros s old r drained.
  assert (H1 : old ∈ _evicted_items s) by (vm_compute; left).
  assert (H2 : key old = name alice) by reflexivity.
  assert (H3 : name alice ∉ key <$> _cache s).
  { apply (bool_decide_unpack _). by vm_compute. }
  split; [exact (conj H1 (conj H2 H3))|].
  destruct (evicted_identity_gets_new_client first_stop_fails plain_config 1
              100 (Timer false 0) _ alice http_basic 2 3 old H1 H2 H3)
    as (Hne & _ & _ & _ & _ & Hc & _ & Hold & Hnew & _).
  exact (conj Hne (conj Hc (conj Hold Hnew))).
Defined.

(** A failed [stop] in the middle of a sweep: the first client fails to
    stop, its failure is logged, and the clients after it are stopped all
    the same. *)
Example sweep_with_a_failing_stop :
  let s :=
    run first_stop_fails
      [Fetch_or_insert alice http_basic 0; Fetch_or_insert bob http_basic 1;
       Fetch_or_insert carol http_basic 2; Fetch_or_insert alice http_basic 3]
      (kafka_client_cache plain_config 3 100 (Timer false 0)) in
  let r := clean_stale_clients first_stop_fails 200 s in
  r.1 = inr tt ∧ stopped (events r.2) = [0; 2; 1]%nat ∧
  EvLog (Stale_client_stop_already_happened "alice"
           (Exception "gate closed")) ∈ events r.2 ∧
  (client_stop first_stop_fails 0%nat s).1 = inl (Exception "gate closed").
Proof.
  split_and!; [by vm_compute | by vm_compute | | by vm_compute].
  apply (bool_decide_unpack _). by vm_compute.
Qed.

(** ** The further properties at sample inputs *)

Lemma fetch_or_insert_evicts_back_witness :
  let s :=
    run first_stop_fails
      [Fetch_or_insert alice http_basic 0; Fetch_or_insert bob http_basic 1]
      (kafka_client_cache plain_config 2 100 (Timer false 0)) in
  let l := [TimestampedUser "bob" 1%nat 1] in
  let item := TimestampedUser "alice" 0%nat 0 in
  let r := fetch_or_insert carol http_basic 2 s in
  ((name carol ∉ key <$> _cache s) ∧ (max_size s ≤ size s)%nat
   ∧ _cache s = l ++ [item]) ∧
  r.1 = 2%nat ∧
  _cache r.2 = TimestampedUser "carol" 2%nat 2 :: l ∧
  _evicted_items r.2 = [item].
Proof.
  intros s l item r.
  assert (H1 : name carol ∉ key <$> _cache s).
  { apply (bool_decide_unpack _). by vm_compute. }
  assert (H2 : (max_size s ≤ size s)%nat) by (vm_compute; lia).
  assert (H3 : _cache s = l ++ [item]) by reflexivity.
  split; [exact (conj H1 (conj H2 H3))|].
  destruct (fetch_or_insert_evicts_back carol http_basic 2 s l item H1 H2 H3)
    as (Hr & Hc & He & _).
  fold r in Hr, Hc, He. rewrite Hc, He, Hr. by vm_compute.
Defined.

Lemma fetch_or_insert_without_eviction_witness :
  let s :=
    run first_stop_fails [Fetch_or_insert alice http_basic 0]
      (kafka_client_cache plain_config 2 100 (Timer true 700)) in
  let r := fetch_or_insert alice http_basic 5 s in
  (name alice ∈ key <$> _cache s ∨ (size s < 2)%nat ∨ size s = 0%nat) ∧
  _clean_and_evict_timer r.2 = Timer true 700 ∧
  _evicted_items r.2 = [] ∧
  rearmed (events r.2) = [].
Proof.
  intros s r.
  assert (H : name alice ∈ key <$> _cache s ∨ (size s < 2)%nat
              ∨ size s = 0%nat).
  { right. left. vm_compute. lia. }
  split; [exact H|].
  exact (fetch_or_insert_without_eviction first_stop_fails plain_config 2 100
           (Timer true 700) [Fetch_or_insert alice http_basic 0]
           alice http_basic 5 H).
Defined.

Lemma eviction_schedules_sweep_witness :
  let s :=
    run first_stop_fails [Fetch_or_insert alice http_basic 0]
      (kafka_client_cache plain_config 1 100 (Timer true 700)) in
  let r := fetch_or_insert bob http_basic 5 s in
  ((name bob ∉ key <$> _cache s) ∧ (max_size s ≤ size s)%nat
   ∧ _cache s ≠ []) ∧
  armed (_clean_and_evict_timer r.2) = true ∧
  get_timeout (_clean_and_evict_timer r.2) ≤ 5 + one_second.
Proof.
  intros s r.
  assert (H1 : name bob ∉ key <$> _cache s).
  { apply (bool_decide_unpack _). by vm_compute. }
  assert (H2 : (max_size s ≤ size s)%nat) by (vm_compute; lia).
  assert (H3 : _cache s ≠ []) by (vm_compute; discriminate).
  exact (conj (conj H1 (conj H2 H3))
           (eviction_schedules_sweep bob http_basic 5 s H1 H2 H3)).
Defined.

Lemma fetch_or_insert_never_postpones_witness :
  let s := kafka_client_cache plain_config 1 100 (Timer true 500) in
  let r := fetch_or_insert alice http_basic 5 s in
  armed (_clean_and_evict_timer s) = true ∧
  armed (_clean_and_evict_timer r.2) = true ∧
  get_timeout (_clean_and_evict_timer r.2) ≤ 500.
Proof.
  intros s r.
  assert (H : armed (_clean_and_evict_timer s) = true) by reflexivity.
  exact (conj H (fetch_or_insert_never_postpones alice http_basic 5 s H)).
Defined.

Lemma clean_stale_clients_again_witness :
  let s :=
    run first_stop_fails
      [Fetch_or_insert alice http_basic 0; Fetch_or_insert bob http_basic 150]
      (kafka_client_cache plain_config 2 100 (Timer false 0)) in
  let swept := (clean_stale_clients first_stop_fails 200 s).2 in
  100 ≤ 200 ∧
  clean_stale_clients first_stop_fails 100 swept = (inr tt, swept).
Proof.
  intros s swept.
  assert (H : 100 ≤ 200) by lia.
  exact (conj H (clean_stale_clients_again first_stop_fails 200 100 s H)).
Defined.

Lemma clean_stale_clients_all_expired_witness :
  let s :=
    run first_stop_fails
      [Fetch_or_insert alice http_basic 0; Fetch_or_insert bob http_basic 150]
      (kafka_client_cache plain_config 2 100 (Timer false 0)) in
  Forall (λ x, expiry_representable (_keep_alive s) (last_used x)
               ∧ last_used x + _keep_alive s ≤ 500) (_cache s) ∧
  clean_stale_clients first_stop_fails 500 s = stop first_stop_fails s.
Proof.
  intros s.
  assert (H : Forall (λ x, expiry_representable (_keep_alive s) (last_used x)
                           ∧ last_used x + _keep_alive s ≤ 500) (_cache s)).
  { repeat constructor; vm_compute; congruence. }
  exact (conj H (clean_stale_clients_all_expired first_stop_fails 500 s H)).
Defined.

Lemma clean_stale_clients_nothing_to_do_witness :
  let s :=
    run first_stop_fails
      [Fetch_or_insert alice http_basic 0; Fetch_or_insert bob http_basic 150]
      (kafka_client_cache plain_config 2 100 (Timer false 0)) in
  (Forall (λ x, expiry_representable (_keep_alive s) (last_used x)
                ∧ 50 < last_used x + _keep_alive s) (_cache s)
   ∧ _evicted_items s = []) ∧
  clean_stale_clients first_stop_fails 50 s = (inr tt, s).
Proof.
  intros s.
  assert (H1 : Forall (λ x, expiry_representable (_keep_alive s) (last_used x)
                            ∧ 50 < last_used x + _keep_alive s) (_cache s)).
  { repeat constructor; vm_compute; congruence. }
  assert (H2 : _evicted_items s = []) by reflexivity.
  exact (conj (conj H1 H2)
           (clean_stale_clients_nothing_to_do first_stop_fails 50 s H1 H2)).
Defined.

Lemma touch_survives_sweep_witness :
  let s0 := kafka_client_cache plain_config 2 100 (Timer false 0) in
  let r1 := fetch_or_insert alice http_basic 0 s0 in
  let swept := (clean_stale_clients first_stop_fails 50 r1.2).2 in
  let r2 :=
    fetch_or_insert (Credential (name alice) "looking-glass") http_basic 60
      swept in
  (expiry_representable 100 0 ∧ 50 < 0 + 100) ∧
  r2.1 = r1.1 ∧ length (clients r2.2) = length (clients r1.2).
Proof.
  intros s0 r1 swept r2.
  assert (Hrep : expiry_representable 100 0)
    by (repeat constructor; vm_compute; congruence).
  assert (H : 50 < 0 + 100) by lia.
  exact (conj (conj Hrep H)
           (touch_survives_sweep first_stop_fails plain_config 2 100
              (Timer false 0) [] alice http_basic 0 50 "looking-glass"
              http_basic 60 Hrep H)).
Defined.

Lemma expired_identity_gets_new_client_witness :
  let s :=
    run first_stop_fails [Fetch_or_insert alice http_basic 0]
      (kafka_client_cache plain_config 2 100 (Timer false 0)) in
  let item := TimestampedUser "alice" 0%nat 0 in
  let swept := (clean_stale_clients first_stop_fails 100 s).2 in
  let r := fetch_or_insert alice http_basic 101 swept in
  (item ∈ _cache s ∧ key item = name alice
   ∧ expiry_representable 100 (last_used item)
   ∧ last_used item + 100 ≤ 100) ∧
  stop_count (tu_client item) swept = 1%nat ∧
  r.1 = length (clients s) ∧
  r.1 ≠ tu_client item ∧
  length (clients r.2) = S (length (clients s)).
Proof.
  intros s item swept r.
  assert (H1 : item ∈ _cache s) by (vm_compute; left).
  assert (H2 : key item = name alice) by reflexivity.
  assert (Hrep : expiry_representable 100 (last_used item))
    by (repeat constructor; vm_compute; congruence).
  assert (H3 : last_used item + 100 ≤ 100) by (simpl; lia).
  exact (conj (conj H1 (conj H2 (conj Hrep H3)))
           (expired_identity_gets_new_client first_stop_fails plain_config 2
              100 (Timer false 0) [Fetch_or_insert alice http_basic 0]
              alice http_basic 100 101 item H1 H2 Hrep H3)).
Defined.

Lemma small_cache_holds_last_identity_witness :
  let s :=
    run first_stop_fails [Fetch_or_insert alice http_basic 0]
      (kafka_client_cache plain_config 0 100 (Timer false 0)) in
  let r := fetch_or_insert bob http_basic 1 s in
  (0 ≤ 1)%nat ∧
  _cache r.2 = [TimestampedUser (name bob) r.1 1].
Proof.
  intros s r.
  assert (H : (0 ≤ 1)%nat) by lia.
  exact (conj H
           (small_cache_holds_last_identity first_stop_fails plain_config 0
              100 (Timer false 0) [Fetch_or_insert alice http_basic 0]
              bob http_basic 1 H)).
Defined.

Lemma fetch_or_insert_client_frame_witness :
  let s :=
    run first_stop_fails
      [Fetch_or_insert alice http_basic 0; Fetch_or_insert bob http_basic 1]
      (kafka_client_cache plain_config 2 100 (Timer false 0)) in
  let r := fetch_or_insert (Credential "bob" "mended") http_basic 2 s in
  let cl := Client (Configuration "SCRAM-SHA-256" "bob" "builder") in
  clients s !! 1%nat = Some cl ∧
  ∃ cl', clients r.2 !! 1%nat = Some cl' ∧
    (if decide (1%nat = r.1)
     then scram_password (config cl') = "mended"
          ∧ sasl_mechanism (config cl') = sasl_mechanism (config cl)
          ∧ scram_username (config cl') = scram_username (config cl)
     else cl' = cl).
Proof.
  intros s r cl.
  assert (H : clients s !! 1%nat = Some cl) by reflexivity.
  exact (conj H
           (fetch_or_insert_client_frame first_stop_fails plain_config 2 100
              (Timer false 0)
              [Fetch_or_insert alice http_basic 0;
               Fetch_or_insert bob http_basic 1]
              (Credential "bob" "mended") http_basic 2 1%nat cl H)).
Defined.

Lemma new_client_configuration_witness :
  let s :=
    run first_stop_fails [Fetch_or_insert alice http_basic 0]
      (kafka_client_cache plain_config 2 100 (Timer false 0)) in
  let r := fetch_or_insert bob http_basic 1 s in
  (name bob ∉ key <$> _cache s) ∧
  config <$> clients r.2 !! r.1 =
    Some (Configuration "SCRAM-SHA-256" (name bob) (pass bob)).
Proof.
  intros s r.
  assert (H : name bob ∉ key <$> _cache s).
  { apply (bool_decide_unpack _). by vm_compute. }
  exact (conj H
           (new_client_configuration first_stop_fails plain_config 2 100
              (Timer false 0) [Fetch_or_insert alice http_basic 0]
              bob http_basic 1 H)).
Defined.

Lemma clients_authenticate_as_identity_witness :
  let ops :=
    [Fetch_or_insert alice http_basic 0; Fetch_or_insert bob http_basic 1;
     Fetch_or_insert carol http_basic 2] in
  let s :=
    run first_stop_fails ops
      (kafka_client_cache plain_config 2 100 (Timer false 0)) in
  let item := TimestampedUser "alice" 0%nat 0 in
  (Forall uses_http_basic ops ∧ item ∈ _cache s ++ _evicted_items s) ∧
  ∃ cl, clients s !! tu_client item = Some cl
        ∧ sasl_mechanism (config cl) = "SCRAM-SHA-256"
        ∧ scram_username (config cl) = key item.
Proof.
  intros ops s item.
  assert (H1 : Forall uses_http_basic ops) by (repeat constructor).
  assert (H2 : item ∈ _cache s ++ _evicted_items s).
  { apply (bool_decide_unpack _). by vm_compute. }
  exact (conj (conj H1 H2)
           (clients_authenticate_as_identity first_stop_fails plain_config 2
              100 (Timer false 0) ops item H1 H2)).
Defined.

Lemma latest_secret_is_configured_witness :
  let ops1 := [Fetch_or_insert alice http_basic 0] in
  let user := Credential "alice" "looking-glass" in
  let ops2 := [Fetch_or_insert bob http_basic 6; Clean_stale_clients 7] in
  let s :=
    run first_stop_fails (ops1 ++ Fetch_or_insert user http_basic 5 :: ops2)
      (kafka_client_cache plain_config 2 100 (Timer false 0)) in
  let item := TimestampedUser "alice" 0%nat 5 in
  (Forall (λ o, ¬ asks_for (name user) o) ops2 ∧ item ∈ _cache s
   ∧ key item = name user) ∧
  ∃ cl, clients s !! tu_client item = Some cl
        ∧ scram_password (config cl) = pass user.
Proof.
  intros ops1 user ops2 s item.
  assert (H1 : Forall (λ o, ¬ asks_for (name user) o) ops2).
  { repeat constructor; simpl; [discriminate | tauto]. }
  assert (H2 : item ∈ _cache s).
  { apply (bool_decide_unpack _). by vm_compute. }
  assert (H3 : key item = name user) by reflexivity.
  exact (conj (conj H1 (conj H2 H3))
           (latest_secret_is_configured first_stop_fails plain_config 2 100
              (Timer false 0) ops1 ops2 user 5 item H1 H2 H3)).
Defined.

Lemma interleaved_stop_exactly_once_witness :
  let acts :=
    [Call (Fetch_or_insert alice http_basic 0);
     Call (Fetch_or_insert bob http_basic 1);
     Call (Clean_stale_clients 200);
     Call (Fetch_or_insert alice http_basic 201);
     Resume 0] in
  let sys :=
    irun first_stop_fails acts
      (kafka_client_cache plain_config 2 100 (Timer false 0), []) in
  (0 < length (clients sys.1))%nat ∧
  stop_count 0%nat sys.1 =
    if decide (0%nat ∈ handles (_cache sys.1)
                 ++ handles (_evicted_items sys.1) ++ pending sys.2)
    then 0%nat else 1%nat.
Proof.
  intros acts sys.
  assert (H : (0 < length (clients sys.1))%nat) by (vm_compute; lia).
  exact (conj H
           (interleaved_stop_exactly_once first_stop_fails plain_config 2 100
              (Timer false 0) acts 0%nat H)).
Defined.

Lemma resumptions_finish_witness :
  let sys :=
    irun first_stop_fails
      [Call (Fetch_or_insert alice http_basic 0);
       Call (Fetch_or_insert bob http_basic 1);
       Call (Clean_stale_clients 200);
       Call (Fetch_or_insert carol http_basic 201)]
      (kafka_client_cache plain_config 2 100 (Timer false 0), []) in
  (2 * length sys.2 + length (pending sys.2) + length (_evicted_items sys.1)
   ≤ 3)%nat ∧
  (irun first_stop_fails (replicate 3 (Resume 0)) (sys.1, sys.2)).2 = [].
Proof.
  intros sys.
  assert (H : (2 * length sys.2 + length (pending sys.2)
               + length (_evicted_items sys.1) ≤ 3)%nat) by (vm_compute; lia).
  exact (conj H (resumptions_finish first_stop_fails 3 sys.1 sys.2 H)).
Defined.

Lemma uninterrupted_call_completes_witness :
  let s :=
    run first_stop_fails
      [Fetch_or_insert alice http_basic 0; Fetch_or_insert bob http_basic 1;
       Fetch_or_insert carol http_basic 150]
      (kafka_client_cache plain_config 2 100 (Timer false 0)) in
  (size s + length (_evicted_items s) < 4)%nat ∧
  irun first_stop_fails (Call (Clean_stale_clients 200) :: replicate 4 (Resume 0))
    (s, [])
  = ((call first_stop_fails (Clean_stale_clients 200) s).2, []).
Proof.
  intros s.
  assert (H : (size s + length (_evicted_items s) < 4)%nat)
    by (vm_compute; lia).
  exact (conj H
           (uninterrupted_call_completes first_stop_fails
              (Clean_stale_clients 200) 4 s H)).
Defined.

(** A caller between two stops of a sweep: the sweep at 200 has removed
    bob and alice and awaits bob's [stop]; a [fetch_or_insert] for alice
    then makes a new client, and the sweep goes on to stop the old one. *)
Example fetch_during_a_sweep :
  let sys :=
    irun first_stop_fails
      [Call (Fetch_or_insert alice http_basic 0);
       Call (Fetch_or_insert bob http_basic 1);
       Call (Clean_stale_clients 200);
       Call (Fetch_or_insert alice http_basic 201);
       Resume 0; Resume 0]
      (kafka_client_cache plain_config 2 100 (Timer false 0), []) in
  sys.2 = [] ∧
  _cache sys.1 = [TimestampedUser "alice" 2%nat 201] ∧
  stopped (events sys.1) = [1; 0]%nat.
Proof. by vm_compute. Qed.

(** ** Where the statements of the spec end *)

(** A [fetch_or_insert] while [stop()] is suspended: [stop()] has removed
    alice and awaits her client's [stop]; bob is inserted; [stop()] then
    returns, nothing is suspended, and the index holds bob: [size()] is
    not 0 after [stop()] has returned. *)
Lemma stop_with_interleaved_fetch :
  let sys :=
    irun first_stop_fails
      [Call (Fetch_or_insert alice http_basic 0); Call Stop;
       Call (Fetch_or_insert bob http_basic 1); Resume 0]
      (kafka_client_cache plain_config 2 100 (Timer false 0), []) in
  sys.2 = [] ∧ size sys.1 = 1%nat ∧ size sys.1 ≠ 0%nat.
Proof. by vm_compute. Qed.

(** A keep-alive of 9223372036854 ms: for an entry touched at 1000 ms the
    sum [last_used + keep_alive] is above the largest 64-bit count of
    nanoseconds and wraps around, so the sweep one millisecond after the
    touch, long before [last_used + keep_alive], removes the entry and
    stops its client. *)
Lemma expiry_time_wraps_around :
  let T := 9223372036854 in
  let s :=
    run first_stop_fails [Fetch_or_insert alice http_basic 1000]
      (kafka_client_cache plain_config 2 T (Timer false 0)) in
  let item := TimestampedUser "alice" 0%nat 1000 in
  let s' := (clean_stale_clients first_stop_fails 1001 s).2 in
  _cache s !! 0%nat = Some item ∧
  ¬ (last_used item + T ≤ 1001) ∧
  _cache s' = [] ∧
  stop_count 0%nat s' = 1%nat.
Proof.
  split_and!; [reflexivity | simpl; lia | by vm_compute | by vm_compute].
Qed.

(** A keep-alive below the 64-bit range of nanoseconds wraps around the
    other way: an entry whose [last_used + keep_alive] is long past is not
    selected by the test, and the sweep keeps it where [stop] removes
    it. *)
Example expiry_time_wraps_for_negative_keep_alive :
  let T := -9223372036855 in
  let s :=
    run first_stop_fails [Fetch_or_insert alice http_basic 0]
      (kafka_client_cache plain_config 2 T (Timer false 0)) in
  let item := TimestampedUser "alice" 0%nat 0 in
  _cache s = [item] ∧
  last_used item + T ≤ 0 ∧
  is_expired T 0 item = false ∧
  _cache (clean_stale_clients first_stop_fails 0 s).2 = [item] ∧
  _cache (stop first_stop_fails s).2 = [].
Proof.
  split_and!; [reflexivity | simpl; lia | by vm_compute | by vm_compute
              | by vm_compute].
Qed.

Lemma stop_uninterrupted_drains_witness :
  let s :=
    run first_stop_fails
      [Fetch_or_insert alice http_basic 0; Fetch_or_insert bob http_basic 1;
       Fetch_or_insert carol http_basic 2]
      (kafka_client_cache plain_config 2 100 (Timer false 0)) in
  let sys :=
    irun first_stop_fails (Call Stop :: replicate 4 (Resume 0)) (s, []) in
  (size s + length (_evicted_items s) < 4)%nat ∧
  sys.2 = [] ∧
  size sys.1 = 0%nat ∧
  _evicted_items sys.1 = [] ∧
  stopped (events sys.1) =
    stopped (events s) ++ handles (_cache s) ++ handles (_evicted_items s).
Proof.
  intros s sys.
  assert (H : (size s + length (_evicted_items s) < 4)%nat)
    by (vm_compute; lia).
  exact (conj H (stop_uninterrupted_drains first_stop_fails 4 s H)).
Defined.
